(** * Shallow embedding of the transcription service

    Sources embedded here:
    - [src/unnamed/part_005]  (constants/speech: FILLER_WORDS, PAUSE_THRESHOLD,
      PACE_SEGMENT_INTERVAL, CONTEXT_WORDS_COUNT, normalizeToken, isFillerWord);
    - [src/src/services/TranscriptionSession.ts] (handleTranscript,
      completeSession, generateSummary, extractCandidateAnswer,
      calculatePaceTimeline, detectFillers, detectPauses, sendToClient,
      cleanup, start);
    - the websocket connection handler ([handleWebSocketConnection]);
    - [src/src/middleware/jwtAuth.ts] (validateJwt, authenticateWebSocket)
      and the upgrade callback of [src/src/server.ts].

    Modelling choices.
    - Times (seconds) are JavaScript numbers; they are modelled as exact
      rationals [Q].  Floating-point rounding of [-] and [+] is not modelled.
    - [Math.round x] is [floor (x + 1/2)]; [parseFloat (x.toFixed 2)] rounds
      to two decimals, ties away from zero.
    - Strings are Stdlib [string]s, i.e. sequences of 8-bit characters read as
      Latin-1 code points. *)

From Stdlib Require Import QArith Qround ZArith String Ascii List Bool Lia.
From Stdlib Require Import Sorting.Sorted.
Import ListNotations.

(* ------------------------------------------------------------------ *)
(** ** Data model (types/index.ts as used by the service) *)

Record TranscriptWord := mkWord {
  word : string;
  start : Q;
  end_ : Q;
  confidence : Q
}.

Record TranscriptSegment := mkSegment {
  text : string;
  seg_startTime : Q;
  seg_endTime : Q;
  seg_words : list TranscriptWord
}.

Record PaceTimelinePoint := mkPoint {
  timestamp : Q;
  wpm : Z;
  segmentStart : Q;
  segmentEnd : Q
}.

Record FillerWithContext := mkFiller {
  f_word : string;
  f_timestamp : Q;
  contextBefore : string;
  contextAfter : string
}.

Record Pause := mkPause {
  p_duration : Q;
  p_timestamp : Q
}.

(* ------------------------------------------------------------------ *)
(** ** Constants (constants/speech) *)

Definition PAUSE_THRESHOLD : Q := 12 # 10.
Definition PACE_SEGMENT_INTERVAL : Z := 30.
Definition CONTEXT_WORDS_COUNT : nat := 5.

Open Scope string_scope.
Open Scope list_scope.

Definition FILLER_WORDS : list string := [
  "um"; "uh"; "erm"; "er"; "ah"; "oh"; "mm"; "mhmm"; "mhm"; "uh-huh"; "uhuh"; "uh-uh";
  "huh"; "eh"; "umm"; "ummm"; "uhh"; "uhhh"; "ermm"; "ahh"; "ohh"; "mmm"; "like"; "so";
  "well"; "anyway"; "anyhow"; "anywho"; "alright"; "okay"; "ok"; "right"; "righto";
  "alrighty"; "you know"; "y'know"; "you know what I mean"; "you see"; "you get me";
  "if you know what I mean"; "you know what I'm saying"; "kind of"; "kinda"; "sort of";
  "sorta"; "ish"; "maybe"; "perhaps"; "I guess"; "I suppose"; "I reckon"; "I think";
  "I feel"; "I feel like"; "I mean"; "I dunno"; "dunno"; "I suppose"; "I believe";
  "I assume"; "actually"; "basically"; "literally"; "seriously"; "honestly"; "frankly";
  "really"; "definitely"; "truly"; "genuinely"; "right?"; "okay?"; "you know?"; "see?";
  "you see?"; "okay so"; "so yeah"; "so anyway"; "so then"; "and then"; "and so";
  "for what it's worth"; "to be honest"; "to be fair"; "if I'm honest"; "not gonna lie";
  "no cap"; "let's be real"; "at the end of the day"; "in the end"; "that being said";
  "having said that"; "all that being said"; "for the most part"; "as I said";
  "like I said"; "as I mentioned"; "if that makes sense"; "if that makes any sense";
  "if that helps"; "you know what I mean?"; "and stuff"; "and things"; "and all that";
  "and all that jazz"; "and all that stuff"; "and so forth"; "and so on"; "and whatnot";
  "or something"; "or whatever"; "or something like that"; "or so"; "or the like";
  "look"; "listen"; "okay look"; "well look"; "now"; "now listen"; "right now";
  "anyways"; "yeah"; "yep"; "yup"; "mm-hmm"; "uh-huh"; "nope"; "nah"; "mmm"; "ah-ha";
  "aha"; "wow"; "oh wow"; "gonna"; "wanna"; "gotta"; "lemme"; "lemme see"; "lemme think";
  "kinda like"; "sort of like"; "so yeah no"; "so yeah but"; "so anyway yeah";
  "anyway yeah"; "anyway so"; "moving on"; "back to"; "to be clear";
  "to be honest with you"; "to tell the truth"; "believe me"; "honestly though"; "innit";
  "yeah yeah"; "yer"; "ya know"; "y'all"; "mate"; "well then"; "well yeah";
  "like I said before"; "as I was saying"; "that sort of thing"; "that kind of thing";
  "if you will"; "if you like"; "so to speak"; "I mean like"; "I mean you know"; "um...";
  "uh..."; "erm..."; "ah..."; "oh..."; "mmm..."; "mm-hmm"; "uh-huh"; "uh-uh"; "hmm"].

(* ------------------------------------------------------------------ *)
(** ** JavaScript numeric helpers *)

(** Strict comparison [x < y] on numbers. *)
Definition Qlt_bool (x y : Q) : bool := negb (Qle_bool y x).

(** [Math.round]. *)
Definition jsRound (x : Q) : Z := Qfloor (x + (1 # 2)).

(** [parseFloat(x.toFixed(2))]: nearest multiple of 1/100, ties away from 0. *)
Definition toFixed2 (x : Q) : Q :=
  if Qle_bool 0 x then Qfloor (x * 100 + (1 # 2)) # 100
  else Qopp (Qfloor (Qopp x * 100 + (1 # 2)) # 100).

(* ------------------------------------------------------------------ *)
(** ** JavaScript string helpers, on lists of characters *)

Definition is_upper (c : ascii) : bool :=
  let n := nat_of_ascii c in ((65 <=? n) && (n <=? 90))%nat.

(** [String.prototype.toLowerCase].  Only A-Z matters below: every other
    letter that changes case is outside [a-z0-9\s'] and is removed by the
    next step of [normalizeToken] anyway. *)
Definition lower_char (c : ascii) : ascii :=
  if is_upper c then ascii_of_nat (nat_of_ascii c + 32)%nat else c.

Definition toLowerCase (s : list ascii) : list ascii := map lower_char s.

(** Regex [\s] on Latin-1: tab, LF, VT, FF, CR, space, no-break space. *)
Definition is_space (c : ascii) : bool :=
  let n := nat_of_ascii c in
  (((9 <=? n) && (n <=? 13)) || (n =? 32) || (n =? 160))%nat.

(** Line terminators, not matched by the regex [.]. *)
Definition is_line_terminator (c : ascii) : bool :=
  let n := nat_of_ascii c in ((n =? 10) || (n =? 13))%nat.

(** [[a-z0-9\s']]. *)
Definition keep_char (c : ascii) : bool :=
  let n := nat_of_ascii c in
  (((97 <=? n) && (n <=? 122)) || ((48 <=? n) && (n <=? 57)) || is_space c
   || (n =? 39))%nat.

(** [.replace(/(.)\1+/g, '$1')]: every maximal run of one character that
    is not a line terminator is replaced by a single copy. *)
Fixpoint collapse_runs (prev : option ascii) (s : list ascii) : list ascii :=
  match s with
  | [] => []
  | c :: r =>
      match prev with
      | Some p => if Ascii.eqb p c then collapse_runs prev r
                  else c :: collapse_runs (if is_line_terminator c then None else Some c) r
      | None => c :: collapse_runs (if is_line_terminator c then None else Some c) r
      end
  end.

(** [.replace(/\s+/g, ' ')]; [in_ws] is true inside a run already replaced. *)
Fixpoint collapse_ws (in_ws : bool) (s : list ascii) : list ascii :=
  match s with
  | [] => []
  | c :: r =>
      if is_space c then (if in_ws then collapse_ws true r else " "%char :: collapse_ws true r)
      else c :: collapse_ws false r
  end.

Fixpoint trim_start (s : list ascii) : list ascii :=
  match s with
  | c :: r => if is_space c then trim_start r else s
  | [] => []
  end.

(** [.trim()]. *)
Definition trim (s : list ascii) : list ascii := rev (trim_start (rev (trim_start s))).

(** [str.split(sep)] for a one-character separator. *)
Fixpoint split_on (sep : ascii) (s : list ascii) : list (list ascii) :=
  match s with
  | [] => [[]]
  | c :: r =>
      let rest := split_on sep r in
      if Ascii.eqb c sep then [] :: rest
      else match rest with
           | h :: t => (c :: h) :: t
           | [] => [[c]]
           end
  end.

(** [arr.join(sep)]. *)
Fixpoint join {A : Type} (sep : list A) (xs : list (list A)) : list A :=
  match xs with
  | [] => []
  | [x] => x
  | x :: r => x ++ sep ++ join sep r
  end.

(** [arr.slice(i, j)] for [0 <= i], [0 <= j]. *)
Definition slice {A : Type} (xs : list A) (i j : nat) : list A :=
  firstn (j - i) (skipn i xs).

(* ------------------------------------------------------------------ *)
(** ** Filler word detection utilities (constants/speech) *)

Definition FILLER_SET : list (list ascii) :=
  map (fun w => toLowerCase (list_ascii_of_string w)) FILLER_WORDS.

Definition filler_set_has (s : list ascii) : bool :=
  existsb (fun m => if list_eq_dec ascii_dec m s then true else false) FILLER_SET.

Definition normalizeToken (token : string) : string :=
  string_of_list_ascii
    (trim (collapse_ws false
       (collapse_runs None (filter keep_char (toLowerCase (list_ascii_of_string token)))))).

Definition isFillerWord (token : string) : bool :=
  let clean := list_ascii_of_string (normalizeToken token) in
  if filler_set_has clean then true
  else
    let parts := split_on " "%char clean in
    existsb (fun i =>
      existsb (fun j => filler_set_has (join [" "%char] (slice parts i j)))
              (seq (i + 1) (length parts - i)%nat))
      (seq 0 (length parts)).

(* ------------------------------------------------------------------ *)
(** ** Speech analysis (TranscriptionSession.ts, lines 361-425)

    The three analyses read [allWords], [startTime] and [endTime]; they are
    written here as functions of those fields. *)

(** Words of one pace window: [w.start >= segStart && w.end <= segEnd]. *)
Definition segWordsOf (allWords : list TranscriptWord) (segStart segEnd : Q)
  : list TranscriptWord :=
  filter (fun w => Qle_bool segStart (start w) && Qle_bool (end_ w) segEnd) allWords.

(** Body of the [for (let t = 0; t < duration; t += PACE_SEGMENT_INTERVAL)]
    loop for one value of [t]; [None] when nothing is pushed. *)
Definition paceEntry (allWords : list TranscriptWord) (startTime : Q) (t : Z)
  : option PaceTimelinePoint :=
  let segStart := startTime + inject_Z t in
  let segEnd := segStart + inject_Z PACE_SEGMENT_INTERVAL in
  match segWordsOf allWords segStart segEnd with
  | [] => None
  | (w0 :: _) as segWords =>
      let segDuration := end_ (last segWords w0) - start w0 in
      let wpm := if Qlt_bool 0 segDuration
                 then (inject_Z (Z.of_nat (length segWords)) / segDuration) * 60
                 else 0 in
      Some (mkPoint segStart (jsRound wpm) segStart segEnd)
  end.

(** The loop itself; [t] is always an integer, [fuel] bounds the iterations. *)
Fixpoint paceLoop (allWords : list TranscriptWord) (startTime duration : Q)
    (fuel : nat) (t : Z) : list PaceTimelinePoint :=
  match fuel with
  | O => []
  | S f =>
      if Qlt_bool (inject_Z t) duration then
        match paceEntry allWords startTime t with
        | Some p => p :: paceLoop allWords startTime duration f (t + PACE_SEGMENT_INTERVAL)
        | None => paceLoop allWords startTime duration f (t + PACE_SEGMENT_INTERVAL)
        end
      else []
  end.

(** Enough fuel: the loop test fails once [t >= duration]. *)
Definition paceFuel (duration : Q) : nat :=
  S (Z.to_nat (Qceiling (duration / inject_Z PACE_SEGMENT_INTERVAL))).

Definition calculatePaceTimeline (allWords : list TranscriptWord) (startTime endTime : Q)
  : list PaceTimelinePoint :=
  let duration := endTime - startTime in
  paceLoop allWords startTime duration (paceFuel duration) 0.

(** [detectFillers]: [this.allWords.map((word, i) => ...)] then drop [null]s. *)
Definition fillerAt (allWords : list TranscriptWord) (i : nat) (w : TranscriptWord)
  : option FillerWithContext :=
  if isFillerWord (word w) then
    let st := (i - CONTEXT_WORDS_COUNT)%nat in
    let en := Nat.min (length allWords - 1) (i + CONTEXT_WORDS_COUNT)%nat in
    Some (mkFiller (word w) (start w)
            (string_of_list_ascii
               (join [" "%char] (map (fun x => list_ascii_of_string (word x)) (slice allWords st i))))
            (string_of_list_ascii
               (join [" "%char] (map (fun x => list_ascii_of_string (word x))
                                    (slice allWords (i + 1)%nat (en + 1)%nat)))))
  else None.

Fixpoint mapFillers (allWords : list TranscriptWord) (i : nat) (ws : list TranscriptWord)
  : list (option FillerWithContext) :=
  match ws with
  | [] => []
  | w :: r => fillerAt allWords i w :: mapFillers allWords (S i) r
  end.

Fixpoint dropNulls {A : Type} (xs : list (option A)) : list A :=
  match xs with
  | [] => []
  | Some x :: r => x :: dropNulls r
  | None :: r => dropNulls r
  end.

Definition detectFillers (allWords : list TranscriptWord) : list FillerWithContext :=
  dropNulls (mapFillers allWords 0 allWords).

(** [detectPauses]: [for (let i = 1; i < this.allWords.length; i++)]. *)
Fixpoint pauseLoop (allWords : list TranscriptWord) (fuel i : nat) : list Pause :=
  match fuel with
  | O => []
  | S f =>
      if (i <? length allWords)%nat then
        match nth_error allWords i, nth_error allWords (i - 1)%nat with
        | Some cur, Some prev =>
            let gap := start cur - end_ prev in
            if Qlt_bool PAUSE_THRESHOLD gap
            then mkPause (toFixed2 gap) (toFixed2 (end_ prev)) :: pauseLoop allWords f (S i)
            else pauseLoop allWords f (S i)
        | _, _ => []
        end
      else []
  end.

Definition detectPauses (allWords : list TranscriptWord) : list Pause :=
  pauseLoop allWords (length allWords) 1.

(* ------------------------------------------------------------------ *)
(** ** TranscriptionSession state and methods *)

Inductive ServerMessage :=
| MsgTranscript (text : string) (isFinal : bool) (words : list TranscriptWord)
| MsgError (message : string)
| MsgSessionComplete (message : string) (interviewId : string)
| MsgStarted (message : string)
| MsgStopped (message : string).

(** Observable side effects, in the order they happen. *)
Inductive Effect :=
| Send (m : ServerMessage)                  (* clientWs.send / ws.send *)
| CloseWs (code : Z) (reason : string)      (* ws.close *)
| DgRequestClose                            (* dgConnection.requestClose() *)
| RoomDisconnect                            (* room.disconnect() *)
| RoomConnect                               (* room.connect(...) *)
| DgOpen                                    (* deepgram.listen.live(...) *)
| BackendPost                               (* axios.post(backendUrl, ...) *)
| NewSession (roomName participantIdentity : string).

(** The fields of a [TranscriptionSession] the claims depend on; [room] and
    [dgConnection] record whether the field is non-null; [clientOpen] is
    [clientWs.readyState === WebSocket.OPEN]. *)
Record Session := mkSession {
  roomName : string;
  participantIdentity : string;
  clientOpen : bool;
  room : bool;
  dgConnection : bool;
  sessionActive : bool;
  allWords : list TranscriptWord;
  segments : list TranscriptSegment;
  startTime : option Q;
  endTime : option Q
}.

(** [new TranscriptionSession(roomName, participantIdentity, clientWs)]. *)
Definition newSession (r p : string) (open : bool) : Session :=
  mkSession r p open false false false [] [] None None.

(** Session methods: state passing with a log of effects. *)
Definition SM := Session -> Session * list Effect.

Definition sm_bind (m1 m2 : SM) : SM :=
  fun s => let '(s1, e1) := m1 s in let '(s2, e2) := m2 s1 in (s2, e1 ++ e2).

Notation "m1 ;; m2" := (sm_bind m1 m2) (at level 61, right associativity).

Definition sm_skip : SM := fun s => (s, []).

Definition sendToClient (m : ServerMessage) : SM :=
  fun s => if clientOpen s then (s, [Send m]) else (s, []).

(** A recognition event: [channel.alternatives[0].transcript] (the empty
    string when missing, both being falsy), [words || []] and [is_final]. *)
Record RecognitionEvent := mkEvent {
  ev_transcript : string;
  ev_words : list TranscriptWord;
  is_final : bool
}.

Definition accumulate (transcript : string) (words : list TranscriptWord) : SM :=
  fun s =>
    match words with
    | [] => (s, [])
    | w0 :: _ =>
        let lastw := last words w0 in
        (mkSession (roomName s) (participantIdentity s) (clientOpen s) (room s)
           (dgConnection s) (sessionActive s)
           (allWords s ++ words)
           (segments s ++ [mkSegment transcript (start w0) (end_ lastw) words])
           (match startTime s with None => Some (start w0) | Some t => Some t end)
           (Some (end_ lastw)), [])
    end.

Definition handleTranscript (data : RecognitionEvent) : SM :=
  fun s =>
    if String.eqb (ev_transcript data) "" then (s, [])
    else
      (sendToClient (MsgTranscript (ev_transcript data) (is_final data) (ev_words data)) ;;
       (if is_final data && negb (Nat.eqb (length (ev_words data)) 0)
        then accumulate (ev_transcript data) (ev_words data)
        else sm_skip)) s.

(** Events delivered one after the other, in arrival order. *)
Fixpoint handleTranscripts (evs : list RecognitionEvent) : SM :=
  match evs with
  | [] => sm_skip
  | e :: r => handleTranscript e ;; handleTranscripts r
  end.

Definition cleanup : SM :=
  fun s =>
    let s0 := mkSession (roomName s) (participantIdentity s) (clientOpen s) (room s)
                (dgConnection s) false (allWords s) (segments s) (startTime s) (endTime s) in
    let '(s1, e1) :=
      if dgConnection s0
      then (mkSession (roomName s0) (participantIdentity s0) (clientOpen s0) (room s0)
              false (sessionActive s0) (allWords s0) (segments s0) (startTime s0) (endTime s0),
            [DgRequestClose])
      else (s0, []) in
    let '(s2, e2) :=
      if room s1
      then (mkSession (roomName s1) (participantIdentity s1) (clientOpen s1) false
              (dgConnection s1) (sessionActive s1) (allWords s1) (segments s1)
              (startTime s1) (endTime s1), [RoomDisconnect])
      else (s1, []) in
    (s2, e1 ++ e2).

(** [start()]: [ok] tells whether connecting to LiveKit and Deepgram
    succeeded; on failure the error is reported and [cleanup] runs. *)
Definition startSession (ok : bool) : SM :=
  fun s =>
    let s1 := mkSession (roomName s) (participantIdentity s) (clientOpen s) true
                (dgConnection s) (sessionActive s) (allWords s) (segments s)
                (startTime s) (endTime s) in
    if ok then
      (mkSession (roomName s1) (participantIdentity s1) (clientOpen s1) (room s1) true true
         (allWords s1) (segments s1) (startTime s1) (endTime s1), [RoomConnect; DgOpen])
    else (sendToClient (MsgError "Failed to start session") ;; cleanup) s1.

Record SessionSummary := mkSummary {
  transcript : string;
  duration : Q;
  totalWords : nat;
  words : list TranscriptWord;
  paceTimeline : list PaceTimelinePoint;
  averagePace : Z;
  fillers : list FillerWithContext;
  pauses : list Pause;
  transcriptSegments : list TranscriptSegment
}.

(** [this.segments.map((s) => s.text).join(" ")]. *)
Definition fullTranscript (s : Session) : string :=
  string_of_list_ascii (join [" "%char] (map (fun g => list_ascii_of_string (text g)) (segments s))).

(** [generateSummary]; [None] when a non-null assertion on [startTime] or
    [endTime] would be violated. *)
Definition generateSummary (s : Session) : option SessionSummary :=
  match startTime s, endTime s with
  | Some st, Some en =>
      let dur := en - st in
      let n := length (allWords s) in
      let averagePace := if Qlt_bool 0 dur then (inject_Z (Z.of_nat n) / dur) * 60 else 0 in
      Some (mkSummary (fullTranscript s) (toFixed2 dur) n (allWords s)
              (calculatePaceTimeline (allWords s) st en) (jsRound averagePace)
              (detectFillers (allWords s)) (detectPauses (allWords s)) (segments s))
  | _, _ => None
  end.

(** [completeSession()]; [backend] is the backend's answer: [Some id] for a
    response carrying [interviewId], [None] when the POST fails. *)
Definition completeSession (backend : option string) : SM :=
  fun s =>
    match allWords s with
    | [] => sendToClient (MsgError "No session data to complete") s
    | _ :: _ =>
        match generateSummary s with
        | None => sendToClient (MsgError "Failed to complete session") s
        | Some _ =>
            match backend with
            | Some id =>
                (fun s => (s, [BackendPost])) ;;
                sendToClient (MsgSessionComplete "Session completed. Analysis in progress..." id)
            | None =>
                (fun s => (s, [BackendPost])) ;; sendToClient (MsgError "Failed to complete session")
            end s
        end
    end.

(* ------------------------------------------------------------------ *)
(** ** Websocket connection handler (handleWebSocketConnection) *)

(** The per-connection state: JWT claims attached to [ws], whether [ws] is
    open, and the handler's [session] variable. *)
Record Conn := mkConn {
  ws_roomName : option string;
  ws_participantIdentity : option string;
  ws_open : bool;
  session : option Session
}.

(** A parsed [ClientMessage]; absent fields are [None]. *)
Record ClientMessage := mkMsg {
  action : string;
  msg_roomName : option string;
  msg_participantIdentity : option string
}.

(** Outcomes of the external collaborators for one message. *)
Record Env := mkEnv {
  start_ok : bool;
  backend_reply : option string
}.

(** [a !== b] on [string | undefined]. *)
Definition opt_neqb (a b : option string) : bool :=
  match a, b with
  | Some x, Some y => negb (String.eqb x y)
  | None, None => false
  | _, _ => true
  end.

Definition with_session (c : Conn) (s : option Session) : Conn :=
  mkConn (ws_roomName c) (ws_participantIdentity c) (ws_open c) s.

Definition closeWs (c : Conn) (code : Z) (reason : string) : Conn * list Effect :=
  (mkConn (ws_roomName c) (ws_participantIdentity c) false (session c), [CloseWs code reason]).

(** [ws.on('message', ...)] for one parsed message. *)
Definition onMessage (env : Env) (c : Conn) (m : ClientMessage) : Conn * list Effect :=
  if String.eqb (action m) "start" then
    if opt_neqb (msg_roomName m) (ws_roomName c) then
      let '(c1, e1) := closeWs c 1008 "Authorization failed" in
      (c1, Send (MsgError "Unauthorized: roomName does not match token") :: e1)
    else if opt_neqb (msg_participantIdentity m) (ws_participantIdentity c) then
      let '(c1, e1) := closeWs c 1008 "Authorization failed" in
      (c1, Send (MsgError "Unauthorized: participantIdentity does not match token") :: e1)
    else
      match msg_roomName m, msg_participantIdentity m with
      | Some r, Some p =>
          if negb (String.eqb r "") && negb (String.eqb p "") then
            let '(s1, e1) := startSession (start_ok env) (newSession r p (ws_open c)) in
            (with_session c (Some s1),
             NewSession r p :: e1 ++ [Send (MsgStarted "Transcription session started")])
          else (c, [Send (MsgError "Missing roomName or participantIdentity")])
      | _, _ => (c, [Send (MsgError "Missing roomName or participantIdentity")])
      end
  else if String.eqb (action m) "stop" then
    match session c with
    | Some s =>
        let '(_, e1) := cleanup s in
        (with_session c None, e1 ++ [Send (MsgStopped "Transcription session stopped")])
    | None => (c, [Send (MsgStopped "Transcription session stopped")])
    end
  else if String.eqb (action m) "complete" then
    match session c with
    | Some s =>
        let '(_, e1) := (completeSession (backend_reply env) ;; cleanup) s in
        (with_session c None, e1)
    | None => (c, [Send (MsgError "No active session to complete")])
    end
  else (c, []).

(* ------------------------------------------------------------------ *)
(** ** Candidate answer extraction (extractCandidateAnswer) *)

Fixpoint is_prefix (p s : list ascii) : bool :=
  match p, s with
  | [], _ => true
  | c :: p', d :: s' => Ascii.eqb c d && is_prefix p' s'
  | _ :: _, [] => false
  end.

(** Unanchored search for a literal: does [p] occur in [s]? *)
Fixpoint contains (p s : list ascii) : bool :=
  match s with
  | [] => is_prefix p []
  | _ :: r => is_prefix p s || contains p r
  end.

(** The alternatives of [/final answer|my answer|the answer is|i estimate|i calculate/i]. *)
Definition ANSWER_ALTERNATIVES : list string :=
  ["final answer"; "my answer"; "the answer is"; "i estimate"; "i calculate"].

(** [re.test(text)] for that regex; the [i] flag folds case (the
    alternatives are already lower case). *)
Definition answerRegexTest (text : list ascii) : bool :=
  existsb (fun a => contains (list_ascii_of_string a) (toLowerCase text)) ANSWER_ALTERNATIVES.

Definition is_digit (c : ascii) : bool :=
  let n := nat_of_ascii c in ((48 <=? n) && (n <=? 57))%nat.

(** [/\d/.test(text)]. *)
Definition digitRegexTest (text : list ascii) : bool := existsb is_digit text.

Definition trimS (s : string) : string := string_of_list_ascii (trim (list_ascii_of_string s)).

(** The test of the loop body on [lastSegments[i].text.toLowerCase()]. *)
Definition answerSegment (g : TranscriptSegment) : bool :=
  answerRegexTest (toLowerCase (list_ascii_of_string (text g))).

(** [for (let i = lastSegments.length - 1; i >= 0; i--)]: [i] counts the
    indices still to visit, the next one being [i - 1]. *)
Fixpoint scanLastSegments (lastSegments : list TranscriptSegment) (i : nat) : option string :=
  match i with
  | O => None
  | S k =>
      match nth_error lastSegments k with
      | Some g =>
          if answerSegment g then Some (trimS (text g))
          else scanLastSegments lastSegments k
      | None => scanLastSegments lastSegments k
      end
  end.

Definition extractCandidateAnswer (segments : list TranscriptSegment) : option string :=
  match segments with
  | [] => None
  | g0 :: _ =>
      let lastSegments := skipn (length segments - 5) segments in
      match scanLastSegments lastSegments (length lastSegments) with
      | Some a => Some a
      | None =>
          let lastSegment := text (last segments g0) in
          if digitRegexTest (list_ascii_of_string lastSegment) then Some (trimS lastSegment)
          else None
      end
  end.

(* ------------------------------------------------------------------ *)
(** ** Upper case (for comparing tokens that differ only in case) *)

Definition is_lower (c : ascii) : bool :=
  let n := nat_of_ascii c in ((97 <=? n) && (n <=? 122))%nat.

(** [String.prototype.toUpperCase] on one Latin-1 character: [a-z] and
    [\u00e0-\u00fe] (except the division sign [\u00f7]) move down by 32,
    [\u00df] becomes the two letters [SS], and the micro sign [\u00b5] and
    [\u00ff] have upper-case forms outside Latin-1 ([None]); every other
    character is unchanged. *)
Definition upper_chars (c : ascii) : option (list ascii) :=
  let n := nat_of_ascii c in
  if is_lower c then Some [ascii_of_nat (n - 32)]
  else if (n =? 223)%nat then Some ["S"%char; "S"%char]
  else if ((224 <=? n) && (n <=? 254) && negb (n =? 247))%nat
  then Some [ascii_of_nat (n - 32)]
  else if ((n =? 181) || (n =? 255))%nat then None
  else Some [c].

Fixpoint upper_list (s : list ascii) : option (list ascii) :=
  match s with
  | [] => Some []
  | c :: r =>
      match upper_chars c, upper_list r with
      | Some u, Some v => Some (u ++ v)
      | _, _ => None
      end
  end.

(** [String.prototype.toUpperCase] on a Latin-1 string; [None] when the
    result leaves Latin-1. *)
Definition toUpperCase (s : string) : option string :=
  option_map string_of_list_ascii (upper_list (list_ascii_of_string s)).

(* ------------------------------------------------------------------ *)
(** ** Token gate (middleware/jwtAuth.ts) and the upgrade callback (server.ts) *)

(** The decoded claims; absent claims are [None]. *)
Record JwtPayload := mkJwt {
  userId : option string;
  jwt_roomName : option string;
  jwt_participantIdentity : option string
}.

(** Outcome of [jwt.verify(token, secret, {issuer, audience})] from the
    jsonwebtoken library.  In that library [TokenExpiredError] and
    [NotBeforeError] are subclasses of [JsonWebTokenError]. *)
Inductive VerifyResult :=
| Verified (p : JwtPayload)
| TokenExpiredError
| JsonWebTokenError
| NotBeforeError
| OtherError (message : string).

Definition instanceof_TokenExpiredError (v : VerifyResult) : bool :=
  match v with TokenExpiredError => true | _ => false end.

Definition instanceof_JsonWebTokenError (v : VerifyResult) : bool :=
  match v with TokenExpiredError | JsonWebTokenError | NotBeforeError => true | _ => false end.

Definition instanceof_NotBeforeError (v : VerifyResult) : bool :=
  match v with NotBeforeError => true | _ => false end.

Definition truthy (o : option string) : bool :=
  match o with Some x => negb (String.eqb x "") | None => false end.

(** [validateJwt]: [inl payload], or [inr message] for the thrown error.
    The missing-claims error is thrown inside the [try] and reaches the
    last branch of the [catch], which rethrows its message. *)
Definition validateJwt (v : VerifyResult) : JwtPayload + string :=
  let caught (v : VerifyResult) (message : string) : JwtPayload + string :=
    if instanceof_TokenExpiredError v then inr "Token expired"
    else if instanceof_JsonWebTokenError v then inr "Invalid authentication token"
    else if instanceof_NotBeforeError v then inr "Token not yet valid"
    else inr message in
  match v with
  | Verified p =>
      if truthy (userId p) && truthy (jwt_roomName p) && truthy (jwt_participantIdentity p)
      then inl p
      else inr "Missing required claims: userId, roomName, or participantIdentity"
  | OtherError m => caught v m
  | _ => caught v "Token validation failed"
  end.

(** What [authenticateWebSocket] does with the socket. *)
Inductive AuthOutcome :=
| Upgraded (p : JwtPayload)          (* wss.handleUpgrade, then handleConnection *)
| Rejected (reason : string).        (* write "HTTP/1.1 401 Unauthorized", destroy *)

(** [token] is the result of [extractTokenFromRequest] ([None] for null). *)
Definition authenticateWebSocket (token : option string) (v : VerifyResult) : AuthOutcome :=
  if negb (truthy token) then Rejected "missing_token"
  else match validateJwt v with
       | inl p => Upgraded p
       | inr m => Rejected m
       end.

(** The upgrade callback of server.ts: claims attached to a fresh, open
    socket whose handler has no session yet. *)
Definition connOfUpgrade (p : JwtPayload) : Conn :=
  mkConn (jwt_roomName p) (jwt_participantIdentity p) true None.

(** The messages of one connection, each handled to completion before the
    next one; every message comes with the outcomes of its collaborators.
    The listener is [async], so in the service a message can arrive while
    an earlier one waits at an [await]; those interleavings are not covered. *)
Fixpoint runMessages (c : Conn) (ms : list (Env * ClientMessage)) : Conn * list Effect :=
  match ms with
  | [] => (c, [])
  | (env, m) :: r =>
      let '(c1, e1) := onMessage env c m in
      let '(c2, e2) := runMessages c1 r in
      (c2, e1 ++ e2)
  end.

(* ------------------------------------------------------------------ *)
(** ** Shape of normalised tokens *)

(** Characters [normalizeToken] can leave: [a-z], digits, apostrophe, space. *)
Definition normal_char (c : ascii) : bool :=
  is_lower c || is_digit c || Ascii.eqb c "'"%char || Ascii.eqb c " "%char.

(** [P] holds for every two adjacent characters. *)
Fixpoint adj_ok (P : ascii -> ascii -> bool) (s : list ascii) : bool :=
  match s with
  | c :: ((d :: _) as r) => P c d && adj_ok P r
  | _ => true
  end.

(** Only normal characters, and never the same character twice in a row. *)
Definition normal_form (s : list ascii) : bool :=
  forallb normal_char s && adj_ok (fun c d => negb (Ascii.eqb c d)) s.

(* ------------------------------------------------------------------ *)
(** ** Reachable session states *)

(** States a session can reach from its construction through the methods
    the service calls on it, each call run to completion before the next
    (interleavings at the [await]s inside a method are not covered). *)
Inductive reachable : Session -> Prop :=
| reach_new : forall r p o, reachable (newSession r p o)
| reach_start : forall ok s, reachable s -> reachable (fst (startSession ok s))
| reach_transcript : forall e s, reachable s -> reachable (fst (handleTranscript e s))
| reach_complete : forall b s, reachable s -> reachable (fst (completeSession b s))
| reach_cleanup : forall s, reachable s -> reachable (fst (cleanup s)).

(** A recognition event that [handleTranscript] accumulates. *)
Definition accumulates (e : RecognitionEvent) : bool :=
  negb (String.eqb (ev_transcript e) "") && is_final e
  && negb (Nat.eqb (length (ev_words e)) 0).

(* ================================================================== *)
(** * Theorems *)

(** ** Teardown *)

(** C7: running [cleanup] a second time right after a first one changes
    nothing and performs no effect (no second [requestClose], no second
    [room.disconnect]). *)
Theorem cleanup_idempotent :
  forall s, let s1 := fst (cleanup s) in cleanup s1 = (s1, []).
Proof.
  intros [r p o rm dg act ws sg st en]; destruct rm, dg; reflexivity.
Qed.

(** ** Filler normalisation *)

(** C9: "Um", "UM" and "ummmm" all normalise to "um" and are all fillers. *)
Theorem filler_case_and_repeats :
  normalizeToken "Um" = "um" /\ normalizeToken "UM" = "um"
  /\ normalizeToken "ummmm" = "um"
  /\ isFillerWord "Um" = true /\ isFillerWord "UM" = true
  /\ isFillerWord "ummmm" = true.
Proof. vm_compute. repeat split. Qed.

(** ** Filler detection works word by word *)

Lemma mapFillers_words :
  forall all l i,
    map (fun f => (f_word f, f_timestamp f)) (dropNulls (mapFillers all i l))
    = map (fun w => (word w, start w)) (filter (fun w => isFillerWord (word w)) l).
Proof.
  intros all l; induction l as [|w l IH]; intros i; [reflexivity|].
  simpl; unfold fillerAt; destruct (isFillerWord (word w)); simpl; rewrite IH; reflexivity.
Qed.

(** C3 (as it is in the code): [detectFillers] emits one event per word
    whose own text satisfies [isFillerWord], in word order, carrying that
    word and its start time; no other word contributes to the test. *)
Theorem detectFillers_per_word :
  forall ws,
    map (fun f => (f_word f, f_timestamp f)) (detectFillers ws)
    = map (fun w => (word w, start w)) (filter (fun w => isFillerWord (word w)) ws).
Proof. intros ws; apply mapFillers_words. Qed.

(** C3 fails: "you know" is a filler phrase, but arriving as the two words
    "you" and "know" it produces no filler event. *)
Lemma filler_phrase_across_words_missed :
  filler_set_has (list_ascii_of_string
     (normalizeToken "you" ++ " " ++ normalizeToken "know")%string) = true
  /\ detectFillers [mkWord "you" 0 (3 # 10) 1; mkWord "know" (3 # 10) (6 # 10) 1] = [].
Proof. vm_compute. split; reflexivity. Qed.

(** ** Completing an empty session *)

Definition complete_msg : ClientMessage := mkMsg "complete" None None.

(** C1 (as it is in the code): with no accumulated word, [completeSession]
    leaves the session unchanged and sends one error message (if the client
    socket is open); the "complete" handler then always runs [cleanup] and
    drops the session, so the session ends inactive with its recognition
    connection and room released. *)
Theorem complete_empty_session :
  forall env c s,
    session c = Some s -> allWords s = [] ->
    completeSession (backend_reply env) s
      = (s, if clientOpen s then [Send (MsgError "No session data to complete")] else [])
    /\ onMessage env c complete_msg
       = (with_session c None,
          (if clientOpen s then [Send (MsgError "No session data to complete")] else [])
          ++ snd (cleanup s))
    /\ sessionActive (fst (cleanup s)) = false
    /\ dgConnection (fst (cleanup s)) = false
    /\ room (fst (cleanup s)) = false.
Proof.
  intros env c s Hs Hw.
  assert (Hc : completeSession (backend_reply env) s
      = (s, if clientOpen s then [Send (MsgError "No session data to complete")] else [])).
  { unfold completeSession, sendToClient; rewrite Hw; destruct (clientOpen s); reflexivity. }
  split; [exact Hc|].
  split.
  - unfold onMessage; simpl; rewrite Hs; unfold sm_bind; rewrite Hc.
    destruct (cleanup s); reflexivity.
  - destruct s as [r p o rm dg act ws sg st en]; destruct rm, dg; repeat split.
Qed.

Lemma complete_empty_session_witness :
  let s := fst (startSession true (newSession "r" "p" true)) in
  let c := with_session (mkConn (Some "r") (Some "p") true None) (Some s) in
  session c = Some s /\ allWords s = []
  /\ (completeSession (backend_reply (mkEnv true None)) s
       = (s, if clientOpen s then [Send (MsgError "No session data to complete")] else [])
    /\ onMessage (mkEnv true None) c complete_msg
       = (with_session c None,
          (if clientOpen s then [Send (MsgError "No session data to complete")] else [])
          ++ snd (cleanup s))
    /\ sessionActive (fst (cleanup s)) = false
    /\ dgConnection (fst (cleanup s)) = false
    /\ room (fst (cleanup s)) = false).
Proof.
  intros s c; split; [reflexivity|]; split; [reflexivity|].
  apply (complete_empty_session (mkEnv true None) c s); reflexivity.
Defined.

(** C1 fails: an active session with no word receives "complete"; the
    recognition connection and the room are released and the handler drops
    the session. *)
Lemma complete_empty_session_tears_down :
  let s := fst (startSession true (newSession "r" "p" true)) in
  let c := with_session (mkConn (Some "r") (Some "p") true None) (Some s) in
  sessionActive s = true /\ dgConnection s = true /\ room s = true /\ allWords s = []
  /\ onMessage (mkEnv true None) c complete_msg
     = (with_session c None,
        [Send (MsgError "No session data to complete"); DgRequestClose; RoomDisconnect])
  /\ sessionActive (fst ((completeSession None ;; cleanup) s)) = false.
Proof. vm_compute. repeat split. Qed.

(** ** Authorisation of "start" *)

Lemma opt_neqb_true : forall a b, opt_neqb a b = true <-> a <> b.
Proof.
  intros [x|] [y|]; simpl; split; try congruence.
  - intros H E; inversion E; subst; rewrite String.eqb_refl in H; discriminate.
  - intros H; destruct (String.eqb x y) eqn:E; [|reflexivity].
    apply String.eqb_eq in E; subst; congruence.
Qed.

Lemma opt_neqb_false : forall a b, opt_neqb a b = false -> a = b.
Proof.
  intros a b H; destruct (opt_neqb a b) eqn:E; [discriminate|].
  destruct (opt_neqb_true a b) as [_ H2].
  destruct a as [x|], b as [y|]; simpl in E; try discriminate; try reflexivity.
  apply negb_false_iff, String.eqb_eq in E; subst; reflexivity.
Qed.

Lemma cleanup_no_new : forall s r p, ~ In (NewSession r p) (snd (cleanup s)).
Proof.
  intros [rn pn o rm dg act ws sg st en] r p; destruct rm, dg; simpl; intuition discriminate.
Qed.

Lemma send_no_new : forall m s r p, ~ In (NewSession r p) (snd (sendToClient m s)).
Proof. intros m s r p; unfold sendToClient; destruct (clientOpen s); simpl; intuition discriminate. Qed.

Lemma complete_no_new : forall b s r p,
  ~ In (NewSession r p) (snd ((completeSession b ;; cleanup) s)).
Proof.
  intros b s r p; unfold sm_bind, completeSession.
  destruct (allWords s); [|destruct (generateSummary s); [destruct b|]];
    unfold sm_bind, sendToClient; destruct (clientOpen s); simpl;
    destruct (cleanup s) as [s2 e2] eqn:E; simpl;
    pose proof (cleanup_no_new s r p) as H; rewrite E in H; simpl in H;
    intuition discriminate.
Qed.

Lemma start_no_new : forall ok s r p, ~ In (NewSession r p) (snd (startSession ok s)).
Proof.
  intros ok s r p; unfold startSession; destruct ok; [simpl; intuition discriminate|].
  unfold sm_bind.
  match goal with
  | |- context [sendToClient ?m ?x] =>
      pose proof (send_no_new m x r p) as HS; destruct (sendToClient m x) as [sa ea]
  end.
  pose proof (cleanup_no_new sa r p) as HC; destruct (cleanup sa) as [sb eb].
  simpl in *; rewrite in_app_iff; tauto.
Qed.

(** C8: a "start" message whose room name or participant identity differs
    from the token's claim closes the connection with an authorisation
    error and creates no session; and a session is only ever created by a
    "start" message whose two values equal the claims. *)
Theorem start_requires_matching_claims :
  (forall env c rn pi,
      (rn <> ws_roomName c \/ pi <> ws_participantIdentity c) ->
      let '(c', effs) := onMessage env c (mkMsg "start" rn pi) in
      In (CloseWs 1008 "Authorization failed") effs
      /\ (exists msg, In (Send (MsgError msg)) effs)
      /\ (forall r p, ~ In (NewSession r p) effs)
      /\ ws_open c' = false /\ session c' = session c)
  /\ (forall env c m r p,
      In (NewSession r p) (snd (onMessage env c m)) ->
      action m = "start"
      /\ msg_roomName m = Some r /\ ws_roomName c = Some r
      /\ msg_participantIdentity m = Some p /\ ws_participantIdentity c = Some p).
Proof.
  split.
  - intros env c rn pi Hne; unfold onMessage; simpl.
    destruct (opt_neqb rn (ws_roomName c)) eqn:E1.
    + simpl; split; [right; left; reflexivity|].
      split; [eexists; left; reflexivity|].
      split; [intros r p; intuition discriminate|]. split; reflexivity.
    + apply opt_neqb_false in E1.
      destruct (opt_neqb pi (ws_participantIdentity c)) eqn:E2.
      * simpl; split; [right; left; reflexivity|].
        split; [eexists; left; reflexivity|].
        split; [intros r p; intuition discriminate|]. split; reflexivity.
      * apply opt_neqb_false in E2; exfalso; destruct Hne; contradiction.
  - intros env c m r p H; unfold onMessage in H.
    destruct (String.eqb (action m) "start") eqn:A.
    + apply String.eqb_eq in A.
      destruct (opt_neqb (msg_roomName m) (ws_roomName c)) eqn:E1;
        [simpl in H; intuition discriminate|].
      destruct (opt_neqb (msg_participantIdentity m) (ws_participantIdentity c)) eqn:E2;
        [simpl in H; intuition discriminate|].
      apply opt_neqb_false in E1, E2.
      destruct (msg_roomName m) as [r0|] eqn:R; [|simpl in H; intuition discriminate].
      destruct (msg_participantIdentity m) as [p0|] eqn:P; [|simpl in H; intuition discriminate].
      destruct (negb (String.eqb r0 "") && negb (String.eqb p0 "")); [|simpl in H; intuition discriminate].
      destruct (startSession (start_ok env) (newSession r0 p0 (ws_open c))) as [s1 e1] eqn:SS.
      simpl in H; destruct H as [H|H].
      * inversion H; subst; repeat split; auto.
      * exfalso; apply in_app_or in H; destruct H as [H|H]; [|simpl in H; intuition discriminate].
        pose proof (start_no_new (start_ok env) (newSession r0 p0 (ws_open c)) r p) as HS.
        rewrite SS in HS; contradiction.
    + destruct (String.eqb (action m) "stop").
      * destruct (session c) as [s|]; [|simpl in H; intuition discriminate].
        pose proof (cleanup_no_new s r p) as HC; destruct (cleanup s) as [s2 e2].
        simpl in H, HC; apply in_app_or in H; simpl in H; intuition discriminate.
      * destruct (String.eqb (action m) "complete"); [|simpl in H; contradiction].
        destruct (session c) as [s|]; [|simpl in H; intuition discriminate].
        pose proof (complete_no_new (backend_reply env) s r p) as HC.
        destruct ((completeSession (backend_reply env) ;; cleanup) s); simpl in H, HC; contradiction.
Qed.

Lemma start_requires_matching_claims_witness :
  let c := mkConn (Some "r") (Some "p") true None in
  (Some "x" <> ws_roomName c \/ Some "p" <> ws_participantIdentity c)
  /\ (let '(c', effs) := onMessage (mkEnv true None) c (mkMsg "start" (Some "x") (Some "p")) in
      In (CloseWs 1008 "Authorization failed") effs
      /\ (exists msg, In (Send (MsgError msg)) effs)
      /\ (forall r p, ~ In (NewSession r p) effs)
      /\ ws_open c' = false /\ session c' = session c).
Proof.
  intros c.
  assert (H : Some "x" <> ws_roomName c \/ Some "p" <> ws_participantIdentity c)
    by (left; simpl; intros E; inversion E).
  split; [exact H|].
  exact (proj1 start_requires_matching_claims (mkEnv true None) c _ _ H).
Defined.

(** ** Accumulation of recognition events *)

Lemma sm_bind_fst : forall m1 m2 s, fst ((m1 ;; m2) s) = fst (m2 (fst (m1 s))).
Proof.
  intros m1 m2 s; unfold sm_bind; destruct (m1 s) as [s1 e1]; simpl.
  destruct (m2 s1); reflexivity.
Qed.

Lemma sendToClient_state : forall m s, fst (sendToClient m s) = s.
Proof. intros m s; unfold sendToClient; destruct (clientOpen s); reflexivity. Qed.

Lemma handleTranscript_step :
  forall e s,
    let s' := fst (handleTranscript e s) in
    map text (segments s') = map text (segments s) ++ (if accumulates e then [ev_transcript e] else [])
    /\ map seg_words (segments s')
       = map seg_words (segments s) ++ (if accumulates e then [ev_words e] else [])
    /\ allWords s' = allWords s ++ (if accumulates e then ev_words e else []).
Proof.
  intros e s; unfold handleTranscript, accumulates.
  destruct (String.eqb (ev_transcript e) "") eqn:T; simpl; [rewrite !app_nil_r; auto|].
  rewrite sm_bind_fst, sendToClient_state.
  destruct (is_final e); simpl; [|rewrite !app_nil_r; auto].
  destruct (ev_words e) as [|w0 ws] eqn:W; simpl; [rewrite !app_nil_r; auto|].
  rewrite !map_app; simpl; auto.
Qed.

Lemma handleTranscripts_acc :
  forall evs s,
    let s' := fst (handleTranscripts evs s) in
    map text (segments s') = map text (segments s) ++ map ev_transcript (filter accumulates evs)
    /\ map seg_words (segments s')
       = map seg_words (segments s) ++ map ev_words (filter accumulates evs)
    /\ allWords s' = allWords s ++ flat_map ev_words (filter accumulates evs).
Proof.
  induction evs as [|e r IH]; intros s; simpl.
  - rewrite !app_nil_r; auto.
  - rewrite sm_bind_fst.
    destruct (IH (fst (handleTranscript e s))) as (H1 & H2 & H3).
    destruct (handleTranscript_step e s) as (G1 & G2 & G3).
    rewrite H1, H2, H3, G1, G2, G3.
    destruct (accumulates e); simpl; rewrite <- !app_assoc; auto.
Qed.

(** C4: after any sequence of recognition events, the session's segments
    are, in arrival order and once each, the accumulated events (final, with
    at least one word, and a non-empty transcript: an interim event is never
    accumulated); the word list is the concatenation of their words; and the
    summary transcript is their texts joined by single spaces. *)
Theorem transcript_accumulation :
  forall evs s,
    let s' := fst (handleTranscripts evs s) in
    map text (segments s') = map text (segments s) ++ map ev_transcript (filter accumulates evs)
    /\ map seg_words (segments s')
       = map seg_words (segments s) ++ map ev_words (filter accumulates evs)
    /\ allWords s' = allWords s ++ flat_map ev_words (filter accumulates evs)
    /\ fullTranscript s'
       = string_of_list_ascii
           (join [" "%char] (map list_ascii_of_string
              (map text (segments s) ++ map ev_transcript (filter accumulates evs))))
    /\ (forall e, In e (filter accumulates evs) -> is_final e = true /\ ev_words e <> []).
Proof.
  intros evs s; cbv zeta.
  destruct (handleTranscripts_acc evs s) as (H1 & H2 & H3).
  split; [exact H1|]; split; [exact H2|]; split; [exact H3|]; split.
  - unfold fullTranscript; rewrite <- H1, map_map; reflexivity.
  - intros e He; apply filter_In in He; destruct He as [_ He]; unfold accumulates in He.
    apply andb_prop in He; destruct He as [He Hw]; apply andb_prop in He; destruct He as [_ Hf].
    split; [exact Hf|]; intros E; rewrite E in Hw; discriminate.
Qed.

(** ** Non-null start and end times *)

Definition times_set (s : Session) : Prop :=
  allWords s = [] \/ ((exists a, startTime s = Some a) /\ (exists b, endTime s = Some b)).

Lemma cleanup_data : forall s,
  allWords (fst (cleanup s)) = allWords s /\ startTime (fst (cleanup s)) = startTime s
  /\ endTime (fst (cleanup s)) = endTime s.
Proof. intros [r p o rm dg act ws sg st en]; destruct rm, dg; repeat split. Qed.

Lemma completeSession_state : forall b s, fst (completeSession b s) = s.
Proof.
  intros b s; unfold completeSession.
  destruct (allWords s); [apply sendToClient_state|].
  destruct (generateSummary s); [|apply sendToClient_state].
  destruct b; rewrite sm_bind_fst; apply sendToClient_state.
Qed.

Lemma startSession_data : forall ok s,
  allWords (fst (startSession ok s)) = allWords s /\ startTime (fst (startSession ok s)) = startTime s
  /\ endTime (fst (startSession ok s)) = endTime s.
Proof.
  intros ok s; unfold startSession; destruct ok; [repeat split|].
  rewrite sm_bind_fst, sendToClient_state.
  destruct (cleanup_data (mkSession (roomName s) (participantIdentity s) (clientOpen s) true
             (dgConnection s) (sessionActive s) (allWords s) (segments s)
             (startTime s) (endTime s))) as (A & B & C).
  rewrite A, B, C; repeat split.
Qed.

Lemma handleTranscript_times : forall e s, times_set s -> times_set (fst (handleTranscript e s)).
Proof.
  intros e s H; unfold handleTranscript.
  destruct (String.eqb (ev_transcript e) ""); [exact H|].
  rewrite sm_bind_fst, sendToClient_state.
  destruct (is_final e); simpl; [|exact H].
  destruct (ev_words e) as [|w0 ws]; simpl; [exact H|].
  right; split; [|eexists; reflexivity].
  destruct (startTime s); eexists; reflexivity.
Qed.

Lemma reachable_times : forall s, reachable s -> times_set s.
Proof.
  induction 1 as [r p o|ok s _ IH|e s _ IH|b s _ IH|s _ IH].
  - left; reflexivity.
  - destruct (startSession_data ok s) as (A & B & C); unfold times_set; rewrite A, B, C; exact IH.
  - apply handleTranscript_times; exact IH.
  - rewrite completeSession_state; exact IH.
  - destruct (cleanup_data s) as (A & B & C); unfold times_set; rewrite A, B, C; exact IH.
Qed.

(** C10: in every reachable session state with a non-empty word list,
    [startTime] and [endTime] are both set, so [generateSummary] (reached by
    [completeSession] only past its empty-list guard) succeeds and its
    duration is computed from [endTime - startTime]. *)
Theorem summary_times_defined :
  forall s, reachable s -> allWords s <> [] ->
  exists st en summary,
    startTime s = Some st /\ endTime s = Some en
    /\ generateSummary s = Some summary /\ duration summary = toFixed2 (en - st).
Proof.
  intros s R N.
  destruct (reachable_times s R) as [E|[[st Hs] [en He]]]; [contradiction|].
  unfold generateSummary; rewrite Hs, He.
  do 3 eexists; split; [reflexivity|]; split; [reflexivity|]; split; reflexivity.
Qed.

Lemma summary_times_defined_witness :
  let s := fst (handleTranscript (mkEvent "hi" [mkWord "hi" 0 1 1] true) (newSession "r" "p" true)) in
  reachable s /\ allWords s <> []
  /\ exists st en summary,
       startTime s = Some st /\ endTime s = Some en
       /\ generateSummary s = Some summary /\ duration summary = toFixed2 (en - st).
Proof.
  intros s.
  assert (R : reachable s) by (apply reach_transcript, reach_new).
  assert (N : allWords s <> []) by (simpl; discriminate).
  split; [exact R|]; split; [exact N|].
  exact (summary_times_defined s R N).
Defined.

(** ** Pause detection *)

Lemma Qlt_bool_iff : forall x y, Qlt_bool x y = true <-> x < y.
Proof.
  intros x y; unfold Qlt_bool; rewrite negb_true_iff; split; intros H.
  - apply Qnot_le_lt; intros H'; apply Qle_bool_iff in H'; congruence.
  - destruct (Qle_bool y x) eqn:E; [|reflexivity].
    apply Qle_bool_iff in E; exfalso; exact (Qlt_not_le _ _ H E).
Qed.

Lemma pauseLoop_In :
  forall ws f i p, (1 <= i)%nat -> (length ws <= i + f)%nat ->
  (In p (pauseLoop ws f i)
   <-> exists j a b, (i <= j)%nat /\ nth_error ws (j - 1) = Some a /\ nth_error ws j = Some b
        /\ PAUSE_THRESHOLD < start b - end_ a
        /\ p = mkPause (toFixed2 (start b - end_ a)) (toFixed2 (end_ a))).
Proof.
  intros ws f; induction f as [|f IH]; intros i p Hi Hf.
  - simpl; split; [contradiction|].
    intros (j & a & b & Hj & _ & Hb & _).
    assert (nth_error ws j = None) by (apply nth_error_None; lia); congruence.
  - simpl; destruct (Nat.ltb i (length ws)) eqn:L.
    + apply Nat.ltb_lt in L.
      destruct (nth_error ws i) as [cur|] eqn:C;
        [|apply nth_error_None in C; lia].
      destruct (nth_error ws (i - 1)) as [prev|] eqn:P;
        [|apply nth_error_None in P; lia].
      assert (IH' := IH (S i) p ltac:(lia) ltac:(lia)).
      destruct (Qlt_bool PAUSE_THRESHOLD (start cur - end_ prev)) eqn:G.
      * apply Qlt_bool_iff in G; simpl; rewrite IH'; split.
        -- intros [E|(j & a & b & Hj & Ha & Hb & Hg & Hp)].
           ++ exists i, prev, cur; auto.
           ++ exists j, a, b; repeat split; auto; lia.
        -- intros (j & a & b & Hj & Ha & Hb & Hg & Hp).
           destruct (Nat.eq_dec i j) as [->|Hne].
           ++ left; rewrite C in Hb; rewrite P in Ha; inversion Ha; inversion Hb; subst; reflexivity.
           ++ right; exists j, a, b; repeat split; auto; lia.
      * rewrite IH'; split.
        -- intros (j & a & b & Hj & Ha & Hb & Hg & Hp); exists j, a, b; repeat split; auto; lia.
        -- intros (j & a & b & Hj & Ha & Hb & Hg & Hp).
           destruct (Nat.eq_dec i j) as [->|Hne].
           ++ rewrite C in Hb; rewrite P in Ha; inversion Ha; inversion Hb; subst.
              apply Qlt_bool_iff in Hg; congruence.
           ++ exists j, a, b; repeat split; auto; lia.
    + apply Nat.ltb_ge in L; simpl; split; [contradiction|].
      intros (j & a & b & Hj & _ & Hb & _).
      assert (nth_error ws j = None) by (apply nth_error_None; lia); congruence.
Qed.

(** C5 (as it is in the code): a pause is reported for the pair
    (word[i-1], word[i]) exactly when the gap [word[i].start - word[i-1].end]
    is strictly greater than [PAUSE_THRESHOLD] (1.2 s); its duration and
    timestamp are the gap and [word[i-1].end] rounded to two decimals. *)
Theorem detectPauses_spec :
  forall ws p,
    In p (detectPauses ws)
    <-> exists i a b, (1 <= i)%nat /\ nth_error ws (i - 1) = Some a /\ nth_error ws i = Some b
         /\ PAUSE_THRESHOLD < start b - end_ a
         /\ p = mkPause (toFixed2 (start b - end_ a)) (toFixed2 (end_ a)).
Proof. intros ws p; unfold detectPauses; apply pauseLoop_In; lia. Qed.

(** A gap of exactly 1.2 s yields no pause; 1.21 s yields one. *)
Lemma pause_threshold_boundary :
  detectPauses [mkWord "a" 0 1 1; mkWord "b" (22 # 10) 3 1] = []
  /\ length (detectPauses [mkWord "a" 0 1 1; mkWord "b" (221 # 100) 3 1]) = 1%nat.
Proof. vm_compute. split; reflexivity. Qed.

(** C5 fails as stated: the reported duration is the gap rounded to two
    decimals (1.23), not the gap itself (1.234). *)
Lemma pause_duration_rounded :
  match detectPauses [mkWord "a" 0 1 1; mkWord "b" (2234 # 1000) 3 1] with
  | [p] => ~ (p_duration p == (2234 # 1000) - 1) /\ p_duration p == 123 # 100
  | _ => False
  end.
Proof. vm_compute. split; [intros H; discriminate H|reflexivity]. Qed.

(** ** Pace timeline *)

Lemma segWordsOf_In :
  forall ws a b w, In w (segWordsOf ws a b) <-> In w ws /\ a <= start w /\ end_ w <= b.
Proof.
  intros ws a b w; unfold segWordsOf; rewrite filter_In; split.
  - intros [H E]; apply andb_prop in E; destruct E as [E1 E2].
    apply Qle_bool_iff in E1; apply Qle_bool_iff in E2; auto.
  - intros (H & E1 & E2); split; [exact H|].
    apply andb_true_intro; split; apply Qle_bool_iff; assumption.
Qed.

Lemma paceLoop_In :
  forall ws st d f j p,
    In p (paceLoop ws st d f (PACE_SEGMENT_INTERVAL * Z.of_nat j))
    <-> exists k, (j <= k < j + f)%nat
         /\ inject_Z (PACE_SEGMENT_INTERVAL * Z.of_nat k) < d
         /\ paceEntry ws st (PACE_SEGMENT_INTERVAL * Z.of_nat k) = Some p.
Proof.
  intros ws st d f; induction f as [|f IH]; intros j p.
  - simpl; split; [contradiction|]; intros (k & Hk & _); lia.
  - cbn [paceLoop].
    replace (PACE_SEGMENT_INTERVAL * Z.of_nat j + PACE_SEGMENT_INTERVAL)%Z
      with (PACE_SEGMENT_INTERVAL * Z.of_nat (S j))%Z by (unfold PACE_SEGMENT_INTERVAL; lia).
    destruct (Qlt_bool (inject_Z (PACE_SEGMENT_INTERVAL * Z.of_nat j)) d) eqn:L.
    + apply Qlt_bool_iff in L.
      destruct (paceEntry ws st (PACE_SEGMENT_INTERVAL * Z.of_nat j)) as [q|] eqn:PE.
      * cbn [In]; rewrite IH; split.
        -- intros [E|(k & Hk & Hl & He)].
           ++ subst; exists j; repeat split; auto; lia.
           ++ exists k; repeat split; auto; lia.
        -- intros (k & Hk & Hl & He); destruct (Nat.eq_dec j k) as [->|Hne].
           ++ left; congruence.
           ++ right; exists k; repeat split; auto; lia.
      * rewrite IH; split.
        -- intros (k & Hk & Hl & He); exists k; repeat split; auto; lia.
        -- intros (k & Hk & Hl & He); destruct (Nat.eq_dec j k) as [->|Hne]; [congruence|].
           exists k; repeat split; auto; lia.
    + split; [contradiction|]; intros (k & Hk & Hl & _).
      assert (Hjk : inject_Z (PACE_SEGMENT_INTERVAL * Z.of_nat j)
                    <= inject_Z (PACE_SEGMENT_INTERVAL * Z.of_nat k))
        by (rewrite <- Zle_Qle; unfold PACE_SEGMENT_INTERVAL; lia).
      assert (H : inject_Z (PACE_SEGMENT_INTERVAL * Z.of_nat j) < d)
        by (eapply Qle_lt_trans; eassumption).
      apply Qlt_bool_iff in H; congruence.
Qed.

Lemma paceFuel_enough :
  forall d k, inject_Z (PACE_SEGMENT_INTERVAL * Z.of_nat k) < d -> (k < paceFuel d)%nat.
Proof.
  intros d k H; unfold paceFuel.
  assert (H1 : inject_Z (Z.of_nat k) < d / inject_Z PACE_SEGMENT_INTERVAL).
  { apply Qlt_shift_div_l; [reflexivity|].
    rewrite <- inject_Z_mult, Z.mul_comm; exact H. }
  assert (H2 : inject_Z (Z.of_nat k)
               < inject_Z (Qceiling (d / inject_Z PACE_SEGMENT_INTERVAL)))
    by (eapply Qlt_le_trans; [exact H1|apply Qle_ceiling]).
  rewrite <- Zlt_Qlt in H2; lia.
Qed.

Lemma calculatePaceTimeline_In :
  forall ws st en p,
    In p (calculatePaceTimeline ws st en)
    <-> exists k, inject_Z (PACE_SEGMENT_INTERVAL * Z.of_nat k) < en - st
         /\ paceEntry ws st (PACE_SEGMENT_INTERVAL * Z.of_nat k) = Some p.
Proof.
  intros ws st en p; unfold calculatePaceTimeline.
  change 0%Z with (PACE_SEGMENT_INTERVAL * Z.of_nat 0)%Z; rewrite paceLoop_In; split.
  - intros (k & _ & Hl & He); exists k; auto.
  - intros (k & Hl & He); exists k; repeat split; auto; [lia|].
    pose proof (paceFuel_enough _ _ Hl); lia.
Qed.

(** The timeline entries are exactly the visited windows with a non-empty
    selection, each carrying the code's words-per-minute figure. *)
Lemma pace_entries_iff :
  forall ws st en p,
    In p (calculatePaceTimeline ws st en)
    <-> exists k w0 rest,
         let segStart := st + inject_Z (PACE_SEGMENT_INTERVAL * Z.of_nat k) in
         let segEnd := segStart + inject_Z PACE_SEGMENT_INTERVAL in
         let span := end_ (last (w0 :: rest) w0) - start w0 in
         inject_Z (PACE_SEGMENT_INTERVAL * Z.of_nat k) < en - st
         /\ segWordsOf ws segStart segEnd = w0 :: rest
         /\ p = mkPoint segStart
                  (jsRound (if Qlt_bool 0 span
                            then inject_Z (Z.of_nat (length (w0 :: rest))) / span * 60
                            else 0))
                  segStart segEnd.
Proof.
  intros ws st en p; rewrite calculatePaceTimeline_In; split.
  - intros (k & Hl & He); unfold paceEntry in He.
    destruct (segWordsOf ws _ _) as [|w0 rest] eqn:S; [discriminate|].
    inversion He; subst; exists k, w0, rest; cbv zeta; auto.
  - intros (k & w0 & rest & Hl & S & Hp); exists k; split; [exact Hl|].
    unfold paceEntry; rewrite S, Hp; reflexivity.
Qed.

(** C2 (as it is in the code): for every window [start + 30k, start + 30k + 30]
    the loop visits ([30k < end - start]), an entry appears iff some word lies
    fully inside it, and its wpm is [Math.round(60 * count / span)] where
    [span] is last selected word's end minus first selected word's start
    (0 when [span <= 0]); a window with no such word has no entry. *)
Theorem pace_timeline_windows :
  forall ws st en,
    (forall p, In p (calculatePaceTimeline ws st en)
     <-> exists k w0 rest,
          let segStart := st + inject_Z (PACE_SEGMENT_INTERVAL * Z.of_nat k) in
          let segEnd := segStart + inject_Z PACE_SEGMENT_INTERVAL in
          let span := end_ (last (w0 :: rest) w0) - start w0 in
          inject_Z (PACE_SEGMENT_INTERVAL * Z.of_nat k) < en - st
          /\ segWordsOf ws segStart segEnd = w0 :: rest
          /\ p = mkPoint segStart
                   (jsRound (if Qlt_bool 0 span
                             then inject_Z (Z.of_nat (length (w0 :: rest))) / span * 60
                             else 0))
                   segStart segEnd)
    /\ (forall k,
          let segStart := st + inject_Z (PACE_SEGMENT_INTERVAL * Z.of_nat k) in
          segWordsOf ws segStart (segStart + inject_Z PACE_SEGMENT_INTERVAL) = [] ->
          forall p, In p (calculatePaceTimeline ws st en) -> ~ (segmentStart p == segStart)).
Proof.
  intros ws st en; split; [apply pace_entries_iff|].
  intros k segStart Hempty p Hp Heq.
  apply pace_entries_iff in Hp; destruct Hp as (k' & w0 & rest & _ & S & Hp).
  subst p; cbn [segmentStart] in Heq; unfold segStart in Heq, Hempty.
  apply (proj1 (Qplus_inj_l _ _ _)) in Heq.
  apply (proj1 (inject_Z_injective _ _)) in Heq.
  assert (k' = k) by (unfold PACE_SEGMENT_INTERVAL in Heq; lia); subst k'.
  congruence.
Qed.

(** C2 fails as stated: two words spanning one second in a 30-second
    window give 120 words per minute, not [60 * 2 / 30 = 4]. *)
Lemma pace_wpm_not_per_window :
  let ws := [mkWord "a" 0 (1 # 2) 1; mkWord "b" (1 # 2) 1 1] in
  length (segWordsOf ws 0 30) = 2%nat
  /\ match calculatePaceTimeline ws 0 1 with
     | [p] => wpm p = 120%Z /\ ~ (inject_Z (wpm p) == 60 * 2 / 30)
     | _ => False
     end.
Proof. vm_compute. split; [reflexivity|]. split; [reflexivity|intros H; discriminate H]. Qed.

(** C6 (as it is in the code): every timeline entry comes from a visited
    window [segStart, segStart + 30] with [segStart = start + 30k] and
    [30k < end - start]; its words are, in list order, those with
    [segStart <= w.start] and [w.end <= segEnd]; there is at least one; and
    the entry's wpm is [Math.round(count / (last.end - first.start) * 60)],
    or 0 when that span is not positive.  Conversely, every visited window
    whose selection is non-empty yields such an entry in the timeline. *)
Theorem pace_entry_selection :
  forall ws st en,
    (forall p,
       In p (calculatePaceTimeline ws st en) ->
       exists k w0 rest,
         inject_Z (PACE_SEGMENT_INTERVAL * Z.of_nat k) < en - st
         /\ segmentStart p = st + inject_Z (PACE_SEGMENT_INTERVAL * Z.of_nat k)
         /\ segmentEnd p = segmentStart p + inject_Z PACE_SEGMENT_INTERVAL
         /\ timestamp p = segmentStart p
         /\ segWordsOf ws (segmentStart p) (segmentEnd p) = w0 :: rest
         /\ (forall w, In w (w0 :: rest)
                       <-> In w ws /\ segmentStart p <= start w /\ end_ w <= segmentEnd p)
         /\ wpm p = jsRound (let span := end_ (last (w0 :: rest) w0) - start w0 in
                             if Qlt_bool 0 span
                             then inject_Z (Z.of_nat (length (w0 :: rest))) / span * 60
                             else 0))
    /\ (forall k w0 rest,
          let segStart := st + inject_Z (PACE_SEGMENT_INTERVAL * Z.of_nat k) in
          let segEnd := segStart + inject_Z PACE_SEGMENT_INTERVAL in
          inject_Z (PACE_SEGMENT_INTERVAL * Z.of_nat k) < en - st ->
          segWordsOf ws segStart segEnd = w0 :: rest ->
          (forall w, In w (w0 :: rest)
                     <-> In w ws /\ segStart <= start w /\ end_ w <= segEnd)
          /\ exists p,
               In p (calculatePaceTimeline ws st en)
               /\ segmentStart p = segStart
               /\ segmentEnd p = segEnd
               /\ timestamp p = segStart
               /\ wpm p = jsRound (let span := end_ (last (w0 :: rest) w0) - start w0 in
                                   if Qlt_bool 0 span
                                   then inject_Z (Z.of_nat (length (w0 :: rest))) / span * 60
                                   else 0)).
Proof.
  intros ws st en; split.
  - intros p Hp.
    apply pace_entries_iff in Hp; destruct Hp as (k & w0 & rest & Hl & S & Hp).
    subst p; exists k, w0, rest; cbn [segmentStart segmentEnd timestamp wpm].
    split; [exact Hl|]; split; [reflexivity|]; split; [reflexivity|]; split; [reflexivity|].
    split; [exact S|]; split; [|reflexivity].
    intros w; rewrite <- S; apply segWordsOf_In.
  - intros k w0 rest segStart segEnd Hl S; split.
    + intros w; rewrite <- S; apply segWordsOf_In.
    + eexists; split.
      * apply pace_entries_iff; exists k, w0, rest; cbv zeta.
        split; [exact Hl|]; split; [exact S|reflexivity].
      * cbn [segmentStart segmentEnd timestamp wpm]; auto.
Qed.

Lemma pace_entry_selection_witness :
  let ws := [mkWord "I" 0 (2 # 10) 1; mkWord "um" (3 # 10) (5 # 10) 1;
             mkWord "think" (19 # 10) (21 # 10) 1] in
  inject_Z (PACE_SEGMENT_INTERVAL * Z.of_nat 0) < (21 # 10) - 0
  /\ segWordsOf ws (0 + inject_Z (PACE_SEGMENT_INTERVAL * Z.of_nat 0))
       (0 + inject_Z (PACE_SEGMENT_INTERVAL * Z.of_nat 0) + inject_Z PACE_SEGMENT_INTERVAL)
     = ws
  /\ exists p,
       In p (calculatePaceTimeline ws 0 (21 # 10))
       /\ segmentStart p = 0 + inject_Z (PACE_SEGMENT_INTERVAL * Z.of_nat 0)
       /\ segmentEnd p = 0 + inject_Z (PACE_SEGMENT_INTERVAL * Z.of_nat 0)
                         + inject_Z PACE_SEGMENT_INTERVAL
       /\ timestamp p = 0 + inject_Z (PACE_SEGMENT_INTERVAL * Z.of_nat 0)
       /\ wpm p = 86%Z.
Proof.
  intros ws.
  assert (Hl : inject_Z (PACE_SEGMENT_INTERVAL * Z.of_nat 0) < (21 # 10) - 0)
    by (vm_compute; reflexivity).
  assert (S : segWordsOf ws (0 + inject_Z (PACE_SEGMENT_INTERVAL * Z.of_nat 0))
                (0 + inject_Z (PACE_SEGMENT_INTERVAL * Z.of_nat 0)
                 + inject_Z PACE_SEGMENT_INTERVAL) = ws)
    by (vm_compute; reflexivity).
  split; [exact Hl|]; split; [exact S|].
  destruct (proj2 (pace_entry_selection ws 0 (21 # 10)) 0%nat
              (mkWord "I" 0 (2 # 10) 1)
              [mkWord "um" (3 # 10) (5 # 10) 1; mkWord "think" (19 # 10) (21 # 10) 1]
              Hl S) as [_ (p & Hp & H1 & H2 & H3 & H4)].
  exists p; split; [exact Hp|]; split; [exact H1|]; split; [exact H2|]; split; [exact H3|].
  rewrite H4; vm_compute; reflexivity.
Defined.

(** C6 fails as stated: the stored figure is rounded; two words over
    0.7 s give [2 / 0.7 * 60 = 171.43...], stored as 171. *)
Lemma pace_wpm_rounded :
  match calculatePaceTimeline [mkWord "a" 0 (35 # 100) 1; mkWord "b" (35 # 100) (7 # 10) 1]
          0 (7 # 10) with
  | [p] => wpm p = 171%Z /\ ~ (inject_Z (wpm p) == 2 / (7 # 10) * 60)
  | _ => False
  end.
Proof. vm_compute. split; [reflexivity|intros H; discriminate H]. Qed.

Lemma pace_timeline_windows_witness :
  let ws := [mkWord "I" 0 (2 # 10) 1; mkWord "um" (3 # 10) (5 # 10) 1;
             mkWord "think" (19 # 10) (21 # 10) 1] in
  let segStart := 0 + inject_Z (PACE_SEGMENT_INTERVAL * Z.of_nat 1) in
  segWordsOf ws segStart (segStart + inject_Z PACE_SEGMENT_INTERVAL) = []
  /\ (forall p, In p (calculatePaceTimeline ws 0 61) -> ~ (segmentStart p == segStart)).
Proof.
  intros ws segStart.
  assert (H : segWordsOf ws segStart (segStart + inject_Z PACE_SEGMENT_INTERVAL) = [])
    by (vm_compute; reflexivity).
  split; [exact H|].
  exact (proj2 (pace_timeline_windows ws 0 61) 1%nat H).
Defined.

(* ================================================================== *)
(** * Further properties of the service *)

(** ** Candidate answer extraction *)

Lemma scan_prefix :
  forall l r i, (i <= length l)%nat -> scanLastSegments (l ++ r) i = scanLastSegments l i.
Proof.
  intros l r i; induction i as [|k IH]; intros Hi; [reflexivity|].
  simpl; rewrite nth_error_app1 by lia.
  destruct (nth_error l k) as [g|]; [destruct (answerSegment g)|]; auto; apply IH; lia.
Qed.

Lemma scan_find :
  forall ls, scanLastSegments ls (length ls)
             = option_map (fun g => trimS (text g)) (find answerSegment (rev ls)).
Proof.
  induction ls as [|x l IH] using rev_ind; [reflexivity|].
  rewrite length_app, Nat.add_1_r, rev_app_distr; simpl.
  rewrite nth_error_app2, Nat.sub_diag by lia; simpl.
  destruct (answerSegment x); [reflexivity|].
  rewrite scan_prefix by lia; exact IH.
Qed.

Lemma find_app_false :
  forall {A} (f : A -> bool) l1 l2,
    (forall x, In x l1 -> f x = false) -> find f (l1 ++ l2) = find f l2.
Proof.
  intros A f l1 l2 H; induction l1 as [|x l1 IH]; [reflexivity|].
  simpl; rewrite (H x (or_introl eq_refl)); apply IH; intros y Hy; apply H; right; exact Hy.
Qed.

Lemma last_nonempty_indep :
  forall {A} (l : list A) d d', l <> [] -> last l d = last l d'.
Proof.
  intros A l d d' H; induction l as [|x [|y l] IH]; [congruence|reflexivity|].
  simpl in *; apply IH; discriminate.
Qed.

Lemma extract_find :
  forall segs,
    extractCandidateAnswer segs
    = match segs with
      | [] => None
      | g0 :: _ =>
          match find answerSegment (rev (skipn (length segs - 5) segs)) with
          | Some g => Some (trimS (text g))
          | None => if digitRegexTest (list_ascii_of_string (text (last segs g0)))
                    then Some (trimS (text (last segs g0))) else None
          end
      end.
Proof.
  intros [|g0 r]; [reflexivity|].
  unfold extractCandidateAnswer; rewrite scan_find.
  destruct (find _ _); reflexivity.
Qed.

Lemma extract_find_ne :
  forall segs d,
    segs <> [] ->
    extractCandidateAnswer segs
    = match find answerSegment (rev (skipn (length segs - 5) segs)) with
      | Some g => Some (trimS (text g))
      | None => if digitRegexTest (list_ascii_of_string (text (last segs d)))
                then Some (trimS (text (last segs d))) else None
      end.
Proof.
  intros [|g0 r] d H; [congruence|].
  rewrite extract_find; destruct (find _ _); [reflexivity|].
  rewrite !(last_nonempty_indep (g0 :: r) g0 d) by discriminate; reflexivity.
Qed.

Lemma last_in_skipn :
  forall {A} (l : list A) d n, l <> [] -> (n < length l)%nat -> In (last l d) (skipn n l).
Proof.
  intros A l d n Hne Hn.
  destruct (exists_last Hne) as (l' & x & ->).
  rewrite last_last, skipn_app.
  rewrite length_app in Hn; simpl in Hn.
  replace (n - length l')%nat with 0%nat by lia.
  apply in_or_app; right; left; reflexivity.
Qed.

(** The candidate answer, when there is one, is the trimmed text of one of
    the last five segments. *)
Theorem candidate_answer_from_last_five :
  forall segs a,
    extractCandidateAnswer segs = Some a ->
    exists g, In g (skipn (length segs - 5) segs) /\ a = trimS (text g).
Proof.
  intros segs a H; rewrite extract_find in H.
  destruct segs as [|g0 r]; [discriminate|]; set (segs := g0 :: r) in *.
  destruct (find answerSegment (rev (skipn (length segs - 5) segs))) as [g|] eqn:F.
  - apply find_some in F; destruct F as [F _]; apply in_rev in F.
    inversion H; subst; exists g; auto.
  - destruct (digitRegexTest _); [|discriminate]; inversion H; subst.
    exists (last segs g0); split; [|reflexivity].
    apply last_in_skipn; [discriminate|simpl; lia].
Qed.

Lemma candidate_answer_from_last_five_witness :
  extractCandidateAnswer [mkSegment " my answer is 42 " 0 1 []] = Some "my answer is 42"
  /\ exists g, In g (skipn (length [mkSegment " my answer is 42 " 0 1 []] - 5)
                          [mkSegment " my answer is 42 " 0 1 []])
               /\ "my answer is 42" = trimS (text g).
Proof.
  assert (H : extractCandidateAnswer [mkSegment " my answer is 42 " 0 1 []] = Some "my answer is 42")
    by (vm_compute; reflexivity).
  split; [exact H|].
  exact (candidate_answer_from_last_five _ _ H).
Defined.

(** Among the last five segments, the latest one containing "final answer",
    "my answer", "the answer is", "i estimate" or "i calculate" (in any
    case) is the answer, trimmed. *)
Theorem candidate_answer_latest_match :
  forall pre g post,
    (length post < 5)%nat -> answerSegment g = true ->
    (forall g', In g' post -> answerSegment g' = false) ->
    extractCandidateAnswer (pre ++ g :: post) = Some (trimS (text g)).
Proof.
  intros pre g post Hlen Hg Hpost.
  rewrite (extract_find_ne _ g) by (destruct pre; discriminate).
  rewrite skipn_app, length_app; simpl.
  replace (length pre + S (length post) - 5 - length pre)%nat with 0%nat by lia; simpl.
  rewrite rev_app_distr; simpl; rewrite <- app_assoc.
  rewrite find_app_false by (intros x Hx; apply Hpost, in_rev; exact Hx).
  simpl; rewrite Hg; reflexivity.
Qed.

Lemma candidate_answer_latest_match_witness :
  let g := mkSegment "So the answer is 5 " 0 1 [] in
  let post := [mkSegment "ok" 1 2 []; mkSegment "thanks 7" 2 3 []] in
  (length post < 5)%nat /\ answerSegment g = true
  /\ (forall g', In g' post -> answerSegment g' = false)
  /\ extractCandidateAnswer ([mkSegment "hi" 0 0 []] ++ g :: post) = Some (trimS (text g)).
Proof.
  intros g post.
  assert (H1 : (length post < 5)%nat) by (simpl; lia).
  assert (H2 : answerSegment g = true) by (vm_compute; reflexivity).
  assert (H3 : forall g', In g' post -> answerSegment g' = false)
    by (intros g' [<-|[<-|[]]]; vm_compute; reflexivity).
  split; [exact H1|]; split; [exact H2|]; split; [exact H3|].
  exact (candidate_answer_latest_match _ g post H1 H2 H3).
Defined.

(** There is no candidate answer exactly when none of the last five
    segments contains one of the answer phrases and the last segment has no
    digit (vacuously so for an empty transcript). *)
Theorem candidate_answer_none :
  forall segs,
    extractCandidateAnswer segs = None
    <-> (forall g, In g (skipn (length segs - 5) segs) -> answerSegment g = false)
        /\ (forall l gl, segs = l ++ [gl] -> digitRegexTest (list_ascii_of_string (text gl)) = false).
Proof.
  intros segs; rewrite extract_find.
  destruct segs as [|g0 r].
  - split; [intros _; split; [intros g []|intros l gl H; destruct l; discriminate]|reflexivity].
  - set (segs := g0 :: r) in *.
    assert (Hne : segs <> []) by discriminate.
    destruct (exists_last Hne) as (l' & x & Ex).
    assert (Hl : last segs g0 = x) by (rewrite Ex; apply last_last).
    rewrite Hl.
    destruct (find answerSegment (rev (skipn (length segs - 5) segs))) as [g|] eqn:F.
    + split; [discriminate|]; intros [H _].
      apply find_some in F; destruct F as [F1 F2]; apply in_rev in F1.
      rewrite (H g F1) in F2; discriminate.
    + pose proof (find_none _ _ F) as HF.
      split.
      * intros Hd; split.
        -- intros g Hg; apply HF, in_rev; rewrite rev_involutive; exact Hg.
        -- intros l gl Hs; rewrite Ex in Hs; apply app_inj_tail in Hs; destruct Hs as [_ <-].
           destruct (digitRegexTest _); [discriminate|reflexivity].
      * intros [_ Hd]; rewrite (Hd l' x Ex); reflexivity.
Qed.

(** ** Pace timeline: order and range *)

Lemma jsRound_nonneg : forall x, 0 <= x -> (0 <= jsRound x)%Z.
Proof.
  intros x Hx; unfold jsRound.
  change 0%Z with (Qfloor 0); apply Qfloor_resp_le.
  apply (Qle_trans _ x); [exact Hx|].
  rewrite <- (Qplus_0_r x) at 1; apply Qplus_le_r; discriminate.
Qed.

Lemma paceEntry_shape :
  forall ws st t p,
    paceEntry ws st t = Some p ->
    segmentStart p = st + inject_Z t /\ (0 <= wpm p)%Z.
Proof.
  intros ws st t p H; unfold paceEntry in H.
  destruct (segWordsOf ws _ _) as [|w0 rest] eqn:S; [discriminate|].
  inversion H; subst; cbn [segmentStart wpm]; split; [reflexivity|].
  apply jsRound_nonneg.
  destruct (Qlt_bool 0 _) eqn:L; [|apply Qle_refl].
  apply Qlt_bool_iff in L.
  apply Qmult_le_0_compat; [|discriminate].
  apply Qle_shift_div_l; [exact L|].
  rewrite Qmult_0_l; change 0 with (inject_Z 0); rewrite <- Zle_Qle; lia.
Qed.

Lemma paceLoop_starts :
  forall ws st d f t p,
    In p (paceLoop ws st d f t) ->
    (exists k, (t <= k)%Z /\ segmentStart p = st + inject_Z k) /\ (0 <= wpm p)%Z.
Proof.
  intros ws st d f; induction f as [|f IH]; intros t p H; [contradiction|].
  cbn [paceLoop] in H.
  destruct (Qlt_bool _ d); [|contradiction].
  destruct (paceEntry ws st t) as [q|] eqn:E.
  - destruct H as [<-|H].
    + apply paceEntry_shape in E; destruct E as [E1 E2].
      split; [exists t; split; [lia|exact E1]|exact E2].
    + destruct (IH _ _ H) as [(k & Hk & Hs) Hw].
      split; [exists k; split; [unfold PACE_SEGMENT_INTERVAL in Hk; lia|exact Hs]|exact Hw].
  - destruct (IH _ _ H) as [(k & Hk & Hs) Hw].
    split; [exists k; split; [unfold PACE_SEGMENT_INTERVAL in Hk; lia|exact Hs]|exact Hw].
Qed.

Lemma paceLoop_sorted :
  forall ws st d f t,
    StronglySorted (fun p q => segmentStart p < segmentStart q) (paceLoop ws st d f t).
Proof.
  intros ws st d f; induction f as [|f IH]; intros t; [constructor|].
  cbn [paceLoop].
  destruct (Qlt_bool _ d); [|constructor].
  destruct (paceEntry ws st t) as [q|] eqn:E; [|apply IH].
  constructor; [apply IH|].
  apply Forall_forall; intros r Hr.
  destruct (paceLoop_starts _ _ _ _ _ _ Hr) as [(k & Hk & Hs) _].
  apply paceEntry_shape in E; destruct E as [E _].
  rewrite E, Hs; apply Qplus_lt_r; rewrite <- Zlt_Qlt.
  unfold PACE_SEGMENT_INTERVAL in Hk; lia.
Qed.

(** The pace timeline is in strictly increasing order of window start. *)
Theorem pace_timeline_sorted :
  forall ws st en,
    StronglySorted (fun p q => segmentStart p < segmentStart q)
                   (calculatePaceTimeline ws st en).
Proof. intros; apply paceLoop_sorted. Qed.

(** Every words-per-minute figure of the timeline is non-negative. *)
Theorem pace_wpm_nonneg :
  forall ws st en, Forall (fun p => (0 <= wpm p)%Z) (calculatePaceTimeline ws st en).
Proof.
  intros ws st en; apply Forall_forall; intros p Hp.
  exact (proj2 (paceLoop_starts _ _ _ _ _ _ Hp)).
Qed.

Lemma nil_of_no_member : forall {A} (l : list A), (forall x, ~ In x l) -> l = [].
Proof. intros A [|x l] H; [reflexivity|exfalso; apply (H x); left; reflexivity]. Qed.

(** The timeline is empty when the session has no word, and when its end
    time is not after its start time. *)
Theorem pace_timeline_empty :
  forall ws st en,
    (ws = [] \/ en <= st) -> calculatePaceTimeline ws st en = [].
Proof.
  intros ws st en H; apply nil_of_no_member; intros p Hp.
  apply calculatePaceTimeline_In in Hp; destruct Hp as (k & Hl & He).
  destruct H as [->|H].
  - unfold paceEntry in He; simpl in He; discriminate.
  - assert (H0 : inject_Z 0 <= inject_Z (PACE_SEGMENT_INTERVAL * Z.of_nat k))
      by (rewrite <- Zle_Qle; unfold PACE_SEGMENT_INTERVAL; lia).
    assert (H1 : en - st <= 0).
    { apply (Qplus_le_l _ _ st); ring_simplify; exact H. }
    exact (Qlt_not_le _ _ (Qle_lt_trans _ _ _ H0 Hl) H1).
Qed.

Lemma pace_timeline_empty_witness :
  (([] : list TranscriptWord) = [] \/ 5 <= 5)
  /\ ([mkWord "a" 1 2 1] = [] \/ 5 <= 5)
  /\ calculatePaceTimeline [mkWord "a" 1 2 1] 5 5 = [].
Proof.
  assert (H : [mkWord "a" 1 2 1] = [] \/ 5 <= 5) by (right; apply Qle_refl).
  split; [left; reflexivity|]; split; [exact H|].
  exact (pace_timeline_empty _ 5 5 H).
Defined.

(** ** Pauses: range and count *)

(** Every reported pause lasts at least [PAUSE_THRESHOLD] (1.2 s) after
    rounding. *)
Theorem pauses_at_least_threshold :
  forall ws, Forall (fun p => PAUSE_THRESHOLD <= p_duration p) (detectPauses ws).
Proof.
  intros ws; apply Forall_forall; intros p Hp; unfold detectPauses in Hp.
  apply pauseLoop_In in Hp; [|lia|lia].
  destruct Hp as (j & a & b & _ & _ & _ & Hg & ->); cbn [p_duration].
  set (g := start b - end_ a) in *.
  unfold toFixed2.
  assert (Hg0 : 0 <= g) by (apply (Qle_trans _ PAUSE_THRESHOLD); [discriminate|apply Qlt_le_weak; exact Hg]).
  apply Qle_bool_iff in Hg0; rewrite Hg0.
  assert (Hz : (120 <= Qfloor (g * 100 + (1 # 2)))%Z).
  { change 120%Z with (Qfloor (PAUSE_THRESHOLD * 100 + (1 # 2))).
    apply Qfloor_resp_le, Qplus_le_l, Qmult_le_r; [reflexivity|apply Qlt_le_weak; exact Hg]. }
  revert Hz; generalize (Qfloor (g * 100 + (1 # 2))); intros z Hz.
  unfold PAUSE_THRESHOLD, Qle; cbn [Qnum Qden]; lia.
Qed.

Lemma pauseLoop_length :
  forall ws f i, (length (pauseLoop ws f i) <= length ws - i)%nat.
Proof.
  intros ws f; induction f as [|f IH]; intros i; [simpl; lia|].
  cbn [pauseLoop]; destruct (Nat.ltb i (length ws)) eqn:L; [|simpl; lia].
  apply Nat.ltb_lt in L.
  destruct (nth_error ws i), (nth_error ws (i - 1)); [|simpl; lia..].
  destruct (Qlt_bool _ _); [cbn [length]|]; specialize (IH (S i)); lia.
Qed.

(** At most one pause per gap between consecutive words. *)
Theorem pauses_count_bound :
  forall ws, (length (detectPauses ws) <= length ws - 1)%nat.
Proof. intros ws; apply pauseLoop_length. Qed.

(** ** Live forwarding of recognition events *)

Lemma handleTranscript_effects :
  forall e s,
    snd (handleTranscript e s)
    = if String.eqb (ev_transcript e) "" then []
      else if clientOpen s
           then [Send (MsgTranscript (ev_transcript e) (is_final e) (ev_words e))]
           else [].
Proof.
  intros e s; unfold handleTranscript.
  destruct (String.eqb (ev_transcript e) ""); [reflexivity|].
  unfold sm_bind, sendToClient; destruct (clientOpen s);
    (destruct (is_final e && _); [unfold accumulate; destruct (ev_words e)|]); reflexivity.
Qed.

Lemma handleTranscript_flags :
  forall e s,
    let s' := fst (handleTranscript e s) in
    clientOpen s' = clientOpen s /\ room s' = room s /\ dgConnection s' = dgConnection s
    /\ sessionActive s' = sessionActive s.
Proof.
  intros e s; unfold handleTranscript.
  destruct (String.eqb (ev_transcript e) ""); [repeat split|].
  rewrite sm_bind_fst, sendToClient_state.
  destruct (is_final e && _); [unfold accumulate; destruct (ev_words e)|]; repeat split.
Qed.

(** Every recognition event with a non-empty transcript, interim or final,
    is forwarded to the client as it arrives, in order, when the client
    socket is open; nothing else is sent, and nothing at all when it is
    closed. *)
Theorem live_transcripts_forwarded :
  forall evs s,
    snd (handleTranscripts evs s)
    = if clientOpen s
      then map (fun e => Send (MsgTranscript (ev_transcript e) (is_final e) (ev_words e)))
               (filter (fun e => negb (String.eqb (ev_transcript e) "")) evs)
      else [].
Proof.
  induction evs as [|e r IH]; intros s; [destruct (clientOpen s); reflexivity|].
  cbn [handleTranscripts]; unfold sm_bind.
  pose proof (handleTranscript_effects e s) as HE.
  pose proof (proj1 (handleTranscript_flags e s)) as HO.
  destruct (handleTranscript e s) as [s1 e1]; simpl in HE, HO.
  specialize (IH s1); destruct (handleTranscripts r s1) as [s2 e2]; simpl in IH |- *.
  rewrite HE, IH, HO; cbn [filter].
  destruct (String.eqb (ev_transcript e) ""), (clientOpen s); reflexivity.
Qed.

(** ** Invariants of reachable sessions *)

Lemma hd_error_rev_last :
  forall {A} (l : list A) d, l <> [] -> hd_error (rev l) = Some (last l d).
Proof.
  intros A l d H; destruct (exists_last H) as (l' & x & ->).
  rewrite rev_app_distr, last_last; reflexivity.
Qed.

(** The word list, start and end times a session keeps agree. *)
Definition words_consistent (s : Session) : Prop :=
  allWords s = flat_map seg_words (segments s)
  /\ startTime s = option_map start (hd_error (allWords s))
  /\ endTime s = option_map end_ (hd_error (rev (allWords s))).

Lemma handleTranscript_consistent :
  forall e s, words_consistent s -> words_consistent (fst (handleTranscript e s)).
Proof.
  intros e s (H1 & H2 & H3); unfold handleTranscript.
  destruct (String.eqb (ev_transcript e) ""); [repeat split; assumption|].
  rewrite sm_bind_fst, sendToClient_state.
  destruct (is_final e && _); [|repeat split; assumption].
  unfold accumulate; destruct (ev_words e) as [|w0 ws] eqn:W; [repeat split; assumption|].
  unfold words_consistent; cbn [allWords segments startTime endTime fst].
  split; [rewrite flat_map_app, H1; simpl; rewrite app_nil_r; reflexivity|].
  split.
  - destruct (allWords s) as [|a l]; rewrite H2; reflexivity.
  - rewrite rev_app_distr.
    pose proof (hd_error_rev_last (w0 :: ws) w0 ltac:(discriminate)) as HL.
    destruct (rev (w0 :: ws)); [discriminate|]; simpl in HL |- *; inversion HL; reflexivity.
Qed.

Lemma startSession_fields :
  forall ok s,
    let s' := fst (startSession ok s) in
    allWords s' = allWords s /\ segments s' = segments s /\ startTime s' = startTime s
    /\ endTime s' = endTime s
    /\ (sessionActive s' = true -> dgConnection s' = true /\ room s' = true).
Proof.
  intros [|] [r p o rm dg act ws sg st en]; [repeat split; reflexivity|].
  unfold startSession; rewrite sm_bind_fst, sendToClient_state.
  destruct dg; simpl; repeat split; discriminate.
Qed.

Lemma cleanup_fields :
  forall s,
    let s' := fst (cleanup s) in
    allWords s' = allWords s /\ segments s' = segments s /\ startTime s' = startTime s
    /\ endTime s' = endTime s /\ sessionActive s' = false.
Proof. intros [r p o rm dg act ws sg st en]; destruct rm, dg; repeat split. Qed.

(** In every reachable session state the word list is the concatenation of
    the segments' words, [startTime] is the start of the first word and
    [endTime] the end of the last one (both null while there is no word). *)
Theorem reachable_words_consistent :
  forall s, reachable s -> words_consistent s.
Proof.
  induction 1 as [r p o|ok s _ IH|e s _ IH|b s _ IH|s _ IH].
  - repeat split.
  - destruct (startSession_fields ok s) as (A & B & C & D & _).
    destruct IH as (H1 & H2 & H3); unfold words_consistent; rewrite A, B, C, D; auto.
  - apply handleTranscript_consistent; exact IH.
  - rewrite completeSession_state; exact IH.
  - destruct (cleanup_fields s) as (A & B & C & D & _).
    destruct IH as (H1 & H2 & H3); unfold words_consistent; rewrite A, B, C, D; auto.
Qed.

Lemma reachable_words_consistent_witness :
  let s := fst (handleTranscript (mkEvent "hi there" [mkWord "hi" 0 1 1; mkWord "there" 1 2 1] true)
                  (newSession "r" "p" true)) in
  reachable s /\ words_consistent s.
Proof.
  intros s; assert (R : reachable s) by (apply reach_transcript, reach_new).
  split; [exact R|exact (reachable_words_consistent s R)].
Defined.

(** ** Effects of the session methods *)

Lemma sendToClient_effects :
  forall m s, snd (sendToClient m s) = if clientOpen s then [Send m] else [].
Proof. intros m s; unfold sendToClient; destruct (clientOpen s); reflexivity. Qed.

Lemma cleanup_effects :
  forall s, snd (cleanup s)
            = (if dgConnection s then [DgRequestClose] else [])
              ++ (if room s then [RoomDisconnect] else []).
Proof. intros [r p o rm dg act ws sg st en]; destruct rm, dg; reflexivity. Qed.

Lemma startSession_effects :
  forall ok s,
    snd (startSession ok s)
    = if ok then [RoomConnect; DgOpen]
      else (if clientOpen s then [Send (MsgError "Failed to start session")] else [])
           ++ (if dgConnection s then [DgRequestClose] else []) ++ [RoomDisconnect].
Proof.
  intros [|] [r p o rm dg act ws sg st en]; [reflexivity|].
  unfold startSession, sm_bind, sendToClient; simpl; destruct o, dg; reflexivity.
Qed.

Lemma completeSession_effects :
  forall b s,
    snd (completeSession b s)
    = match allWords s with
      | [] => if clientOpen s then [Send (MsgError "No session data to complete")] else []
      | _ :: _ =>
          match generateSummary s with
          | None => if clientOpen s then [Send (MsgError "Failed to complete session")] else []
          | Some _ =>
              BackendPost ::
              (if clientOpen s
               then [Send (match b with
                           | Some id => MsgSessionComplete
                                          "Session completed. Analysis in progress..." id
                           | None => MsgError "Failed to complete session"
                           end)]
               else [])
          end
      end.
Proof.
  intros b s; unfold completeSession.
  destruct (allWords s); [apply sendToClient_effects|].
  destruct (generateSummary s); [|apply sendToClient_effects].
  destruct b; unfold sm_bind, sendToClient; destruct (clientOpen s); reflexivity.
Qed.

Lemma complete_cleanup_effects :
  forall b s,
    snd ((completeSession b ;; cleanup) s) = snd (completeSession b s) ++ snd (cleanup s).
Proof.
  intros b s; unfold sm_bind.
  pose proof (completeSession_state b s) as E.
  destruct (completeSession b s) as [s1 e1]; simpl in E; subst s1.
  destruct (cleanup s); reflexivity.
Qed.

Lemma onMessage_complete :
  forall env c m, action m = "complete" ->
  onMessage env c m
  = match session c with
    | Some s => (with_session c None,
                 snd (completeSession (backend_reply env) s) ++ snd (cleanup s))
    | None => (c, [Send (MsgError "No active session to complete")])
    end.
Proof.
  intros env c m A; unfold onMessage; rewrite A; simpl.
  destruct (session c) as [s|]; [|reflexivity].
  rewrite <- complete_cleanup_effects.
  destruct ((completeSession (backend_reply env) ;; cleanup) s); reflexivity.
Qed.

(** ** The connection handler *)

(** The analysis is posted to the backend by a "complete" message only, and
    exactly when the handler holds a session with at least one word whose
    summary can be generated. *)
Theorem backend_post_iff :
  forall env c m,
    In BackendPost (snd (onMessage env c m))
    <-> action m = "complete"
        /\ exists s, session c = Some s /\ allWords s <> [] /\ generateSummary s <> None.
Proof.
  intros env c m.
  destruct (String.eqb (action m) "complete") eqn:AC.
  - apply String.eqb_eq in AC; rewrite (onMessage_complete env c m AC).
    destruct (session c) as [s|]; simpl.
    + rewrite in_app_iff, completeSession_effects, cleanup_effects.
      split.
      * intros H; split; [exact AC|]; exists s; split; [reflexivity|].
        destruct (allWords s) as [|w ws];
          [destruct (clientOpen s); simpl in H; destruct (dgConnection s), (room s); simpl in H;
           intuition discriminate|].
        split; [discriminate|].
        destruct (generateSummary s); [discriminate|].
        destruct (clientOpen s); simpl in H; destruct (dgConnection s), (room s); simpl in H;
          intuition discriminate.
      * intros (_ & s' & E & W & G); inversion E; subst s'.
        destruct (allWords s); [congruence|].
        destruct (generateSummary s); [left; left; reflexivity|congruence].
    + split; [intros [H|[]]; discriminate|intros (_ & s & E & _); discriminate].
  - split; [|intros [A _]; rewrite A in AC; discriminate].
    intros H; exfalso; unfold onMessage in H.
    destruct (String.eqb (action m) "start").
    + destruct (opt_neqb _ _); [simpl in H; intuition discriminate|].
      destruct (opt_neqb _ _); [simpl in H; intuition discriminate|].
      destruct (msg_roomName m) as [r|], (msg_participantIdentity m) as [p|];
        try (simpl in H; intuition discriminate).
      destruct (negb _ && negb _); [|simpl in H; intuition discriminate].
      pose proof (startSession_effects (start_ok env) (newSession r p (ws_open c))) as SE.
      destruct (startSession _ _) as [s1 e1]; simpl in SE, H; subst e1.
      destruct (start_ok env), (ws_open c); simpl in H; intuition discriminate.
    + destruct (String.eqb (action m) "stop").
      * destruct (session c) as [s|]; [|simpl in H; intuition discriminate].
        pose proof (cleanup_effects s) as CE; destruct (cleanup s) as [s2 e2]; simpl in CE, H.
        subst e2; destruct (dgConnection s), (room s); simpl in H; intuition discriminate.
      * rewrite AC in H; simpl in H; exact H.
Qed.

(** A "start" whose values match the token's claims and whose connections
    succeed replaces the handler's session by a new, active one; a session
    held before is dropped without being torn down (no [requestClose], no
    [disconnect] for it). *)
Theorem start_replaces_session :
  forall env c m r p,
    action m = "start" ->
    msg_roomName m = Some r -> ws_roomName c = Some r ->
    msg_participantIdentity m = Some p -> ws_participantIdentity c = Some p ->
    r <> "" -> p <> "" -> start_ok env = true ->
    onMessage env c m
    = (with_session c (Some (mkSession r p (ws_open c) true true true [] [] None None)),
       [NewSession r p; RoomConnect; DgOpen; Send (MsgStarted "Transcription session started")]).
Proof.
  intros env c m r p A R1 R2 P1 P2 Hr Hp OK; unfold onMessage.
  rewrite A, R1, R2, P1, P2, OK; simpl.
  rewrite !String.eqb_refl; simpl.
  apply String.eqb_neq in Hr, Hp; rewrite Hr, Hp; reflexivity.
Qed.

Lemma start_replaces_session_witness :
  let old := fst (startSession true (newSession "r" "p" true)) in
  let c := mkConn (Some "r") (Some "p") true (Some old) in
  let m := mkMsg "start" (Some "r") (Some "p") in
  onMessage (mkEnv true None) c m
  = (with_session c (Some (mkSession "r" "p" (ws_open c) true true true [] [] None None)),
     [NewSession "r" "p"; RoomConnect; DgOpen; Send (MsgStarted "Transcription session started")]).
Proof.
  intros old c m.
  exact (start_replaces_session (mkEnv true None) c m "r" "p" eq_refl eq_refl eq_refl eq_refl
           eq_refl ltac:(discriminate) ltac:(discriminate) eq_refl).
Defined.

(** A "start" whose connections fail still ends with the "started" reply,
    after the session has been torn down: the handler keeps an inactive
    session with no recognition connection and no room. *)
Theorem start_failure_reports_started :
  forall env c m r p,
    action m = "start" ->
    msg_roomName m = Some r -> ws_roomName c = Some r ->
    msg_participantIdentity m = Some p -> ws_participantIdentity c = Some p ->
    r <> "" -> p <> "" -> start_ok env = false ->
    exists s1 effs,
      onMessage env c m
      = (with_session c (Some s1),
         NewSession r p :: effs ++ [RoomDisconnect; Send (MsgStarted "Transcription session started")])
      /\ sessionActive s1 = false /\ dgConnection s1 = false /\ room s1 = false.
Proof.
  intros env c m r p A R1 R2 P1 P2 Hr Hp OK; unfold onMessage.
  rewrite A, R1, R2, P1, P2, OK; simpl.
  rewrite !String.eqb_refl; simpl.
  apply String.eqb_neq in Hr, Hp; rewrite Hr, Hp; simpl.
  unfold startSession, sm_bind, sendToClient; simpl.
  destruct (ws_open c); simpl;
    [eexists; exists [Send (MsgError "Failed to start session")]|eexists; exists []];
    (split; [reflexivity|]); simpl; auto.
Qed.

Lemma start_failure_reports_started_witness :
  let c := mkConn (Some "r") (Some "p") true None in
  let m := mkMsg "start" (Some "r") (Some "p") in
  exists s1 effs,
    onMessage (mkEnv false None) c m
    = (with_session c (Some s1),
       NewSession "r" "p" :: effs ++ [RoomDisconnect; Send (MsgStarted "Transcription session started")])
    /\ sessionActive s1 = false /\ dgConnection s1 = false /\ room s1 = false.
Proof.
  intros c m.
  exact (start_failure_reports_started (mkEnv false None) c m "r" "p" eq_refl eq_refl eq_refl
           eq_refl eq_refl ltac:(discriminate) ltac:(discriminate) eq_refl).
Defined.

(** ** The token gate *)

(** A connection is upgraded exactly when the request carries a non-empty
    token, the token verifies, and its userId, roomName and
    participantIdentity claims are all present and non-empty; the upgraded
    connection carries that payload. *)
Theorem authenticate_upgraded_iff :
  forall token v p,
    authenticateWebSocket token v = Upgraded p
    <-> truthy token = true /\ v = Verified p
        /\ truthy (userId p) = true /\ truthy (jwt_roomName p) = true
        /\ truthy (jwt_participantIdentity p) = true.
Proof.
  intros token v p; unfold authenticateWebSocket.
  destruct (truthy token); simpl; [|split; [discriminate|intros [H _]; discriminate]].
  split.
  - destruct v as [q| | | |msg]; simpl; try discriminate.
    destruct (truthy (userId q)) eqn:U, (truthy (jwt_roomName q)) eqn:R,
      (truthy (jwt_participantIdentity q)) eqn:P; simpl; try discriminate.
    intros E; inversion E; subst; auto.
  - intros (_ & -> & U & R & P); simpl; rewrite U, R, P; reflexivity.
Qed.

Lemma authenticate_upgraded_iff_witness :
  let p := mkJwt (Some "u") (Some "r") (Some "p") in
  authenticateWebSocket (Some "t") (Verified p) = Upgraded p
  /\ authenticateWebSocket (Some "t") (Verified (mkJwt (Some "u") (Some "") (Some "p")))
     <> Upgraded (mkJwt (Some "u") (Some "") (Some "p")).
Proof.
  intros p; split.
  - apply (proj2 (authenticate_upgraded_iff _ _ _)); repeat split.
  - intros H; apply authenticate_upgraded_iff in H; destruct H as (_ & _ & _ & R & _).
    discriminate R.
Defined.

(** The "Token not yet valid" branch of [validateJwt] is dead: a token
    used before its [nbf] time is reported as "Invalid authentication
    token", and the message "Token not yet valid" can only be an error
    that is not the library's own carrying that very text. *)
Theorem not_yet_valid_unreachable :
  validateJwt NotBeforeError = inr "Invalid authentication token"
  /\ forall v, validateJwt v = inr "Token not yet valid" -> v = OtherError "Token not yet valid".
Proof.
  split; [reflexivity|].
  intros [q| | | |msg]; simpl; try discriminate.
  - destruct (truthy (userId q) && _ && _); discriminate.
  - intros E; inversion E; reflexivity.
Qed.

(** ** The gate and the handler together *)

Lemma onMessage_claims :
  forall env c m,
    ws_roomName (fst (onMessage env c m)) = ws_roomName c
    /\ ws_participantIdentity (fst (onMessage env c m)) = ws_participantIdentity c.
Proof.
  intros env c m; unfold onMessage.
  destruct (String.eqb (action m) "start").
  - destruct (opt_neqb _ _); [simpl; auto|].
    destruct (opt_neqb _ _); [simpl; auto|].
    destruct (msg_roomName m) as [r|], (msg_participantIdentity m) as [p|]; simpl; auto.
    destruct (negb _ && negb _); [|simpl; auto].
    destruct (startSession _ _); simpl; auto.
  - destruct (String.eqb (action m) "stop").
    + destruct (session c) as [s|]; [destruct (cleanup s)|]; simpl; auto.
    + destruct (String.eqb (action m) "complete"); [|simpl; auto].
      destruct (session c) as [s|]; [destruct ((completeSession _ ;; cleanup) s)|]; simpl; auto.
Qed.

Lemma onMessage_no_missing :
  forall env c m,
    truthy (ws_roomName c) = true -> truthy (ws_participantIdentity c) = true ->
    ~ In (Send (MsgError "Missing roomName or participantIdentity")) (snd (onMessage env c m)).
Proof.
  intros env c m TR TP H.
  destruct (String.eqb (action m) "complete") eqn:AC.
  - apply String.eqb_eq in AC; rewrite (onMessage_complete env c m AC) in H.
    destruct (session c) as [s|]; simpl in H; [|intuition discriminate].
    rewrite completeSession_effects, cleanup_effects, in_app_iff in H.
    destruct (allWords s); [|destruct (generateSummary s); [destruct (backend_reply env)|]];
      destruct (clientOpen s), (dgConnection s), (room s); simpl in H; intuition discriminate.
  - unfold onMessage in H.
    destruct (String.eqb (action m) "start").
    + destruct (opt_neqb (msg_roomName m) (ws_roomName c)) eqn:E1;
        [simpl in H; intuition discriminate|].
      destruct (opt_neqb (msg_participantIdentity m) (ws_participantIdentity c)) eqn:E2;
        [simpl in H; intuition discriminate|].
      apply opt_neqb_false in E1, E2; rewrite E1 in *; rewrite E2 in *.
      destruct (ws_roomName c) as [r|]; [|discriminate].
      destruct (ws_participantIdentity c) as [p|]; [|discriminate].
      simpl in TR, TP; rewrite TR, TP in H; simpl in H.
      pose proof (startSession_effects (start_ok env) (newSession r p (ws_open c))) as SE.
      destruct (startSession _ _) as [s1 e1]; simpl in SE, H; subst e1.
      destruct (start_ok env), (ws_open c); simpl in H; intuition discriminate.
    + destruct (String.eqb (action m) "stop").
      * destruct (session c) as [s|]; [|simpl in H; intuition discriminate].
        pose proof (cleanup_effects s) as CE; destruct (cleanup s) as [s2 e2]; simpl in CE, H.
        subst e2; destruct (dgConnection s), (room s); simpl in H; intuition discriminate.
      * rewrite AC in H; simpl in H; exact H.
Qed.

Lemma runMessages_claims_no_missing :
  forall ms c,
    truthy (ws_roomName c) = true -> truthy (ws_participantIdentity c) = true ->
    ws_roomName (fst (runMessages c ms)) = ws_roomName c
    /\ ws_participantIdentity (fst (runMessages c ms)) = ws_participantIdentity c
    /\ ~ In (Send (MsgError "Missing roomName or participantIdentity")) (snd (runMessages c ms)).
Proof.
  induction ms as [|[env m] r IH]; intros c TR TP; [simpl; auto|].
  cbn [runMessages].
  pose proof (onMessage_claims env c m) as [C1 C2].
  pose proof (onMessage_no_missing env c m TR TP) as NM.
  destruct (onMessage env c m) as [c1 e1]; simpl in C1, C2, NM.
  rewrite <- C1 in TR; rewrite <- C2 in TP.
  destruct (IH c1 TR TP) as (D1 & D2 & NM2).
  destruct (runMessages c1 r) as [c2 e2]; simpl in *.
  split; [congruence|]; split; [congruence|].
  rewrite in_app_iff; tauto.
Qed.

(** On a connection the token gate let through (server.ts attaches the
    verified claims to the socket), the claims never change whatever
    messages arrive, and the "Missing roomName or participantIdentity"
    error is never sent: that check of the handler is unreachable. *)
Theorem upgraded_connection_never_missing :
  forall token v p ms,
    authenticateWebSocket token v = Upgraded p ->
    let '(c', effs) := runMessages (connOfUpgrade p) ms in
    ws_roomName c' = jwt_roomName p /\ ws_participantIdentity c' = jwt_participantIdentity p
    /\ ~ In (Send (MsgError "Missing roomName or participantIdentity")) effs.
Proof.
  intros token v p ms H.
  apply authenticate_upgraded_iff in H; destruct H as (_ & _ & _ & TR & TP).
  pose proof (runMessages_claims_no_missing ms (connOfUpgrade p) TR TP) as R.
  destruct (runMessages (connOfUpgrade p) ms); exact R.
Qed.

Lemma upgraded_connection_never_missing_witness :
  let p := mkJwt (Some "u") (Some "r") (Some "p") in
  let ms := [(mkEnv true None, mkMsg "start" (Some "r") (Some "p"));
             (mkEnv true (Some "i1"), complete_msg)] in
  authenticateWebSocket (Some "t") (Verified p) = Upgraded p
  /\ let '(c', effs) := runMessages (connOfUpgrade p) ms in
     ws_roomName c' = jwt_roomName p /\ ws_participantIdentity c' = jwt_participantIdentity p
     /\ ~ In (Send (MsgError "Missing roomName or participantIdentity")) effs.
Proof.
  intros p ms.
  assert (H : authenticateWebSocket (Some "t") (Verified p) = Upgraded p) by reflexivity.
  split; [exact H|].
  exact (upgraded_connection_never_missing _ _ p ms H).
Defined.

(** ** Filler normalisation: case and shape *)





(** Without the [\u00df] condition the property fails: [\u00df] upper-cases
    to [SS], so ["\u00dfo"] is not a filler word but its upper-case form
    ["SSO"] is (it normalises to ["so"]). *)
Lemma sharp_s_upper_case_filler :
  toUpperCase (String (ascii_of_nat 223) "o") = Some "SSO"
  /\ isFillerWord (String (ascii_of_nat 223) "o") = false
  /\ isFillerWord "SSO" = true.
Proof. vm_compute; split; [reflexivity|split; reflexivity]. Qed.

Lemma adj_ok_cons2 :
  forall P c d r, adj_ok P (c :: d :: r) = P c d && adj_ok P (d :: r).
Proof. reflexivity. Qed.

Lemma adj_ok_spec :
  forall P s, adj_ok P s = true <-> forall l1 c d l2, s = l1 ++ c :: d :: l2 -> P c d = true.
Proof.
  intros P s; induction s as [|c r IH].
  - split; [intros _ l1 c d l2 E; destruct l1; discriminate|reflexivity].
  - destruct r as [|d r'].
    + split; [|reflexivity].
      intros _ [|x [|y l1]] c' d' l2 E; simpl in E; inversion E.
    + rewrite adj_ok_cons2, andb_true_iff, IH; split.
      * intros [Hcd H] [|x l1] c' d' l2 E; simpl in E; inversion E; subst.
        -- exact Hcd.
        -- apply (H l1 c' d' l2); assumption.
      * intros H; split; [apply (H [] c d r'); reflexivity|].
        intros l1 c' d' l2 E; apply (H (c :: l1) c' d' l2); rewrite E; reflexivity.
Qed.

Lemma adj_ok_infix :
  forall P a b c, adj_ok P (a ++ b ++ c) = true -> adj_ok P b = true.
Proof.
  intros P a b c H; rewrite adj_ok_spec in H |- *.
  intros l1 x y l2 E; apply (H (a ++ l1) x y (l2 ++ c)).
  rewrite E, <- !app_assoc; reflexivity.
Qed.

Lemma adj_ok_tail : forall P c r, adj_ok P (c :: r) = true -> adj_ok P r = true.
Proof. intros P c r H; apply (adj_ok_infix P [c] r []); rewrite app_nil_r; exact H. Qed.

Lemma collapse_runs_adj :
  forall s prev,
    adj_ok (fun c d => negb (Ascii.eqb c d) || is_line_terminator c) (collapse_runs prev s) = true
    /\ (forall p c, prev = Some p -> hd_error (collapse_runs prev s) = Some c -> c <> p).
Proof.
  induction s as [|c r IH]; intros prev; [split; [reflexivity|intros p c _ H; discriminate]|].
  assert (Emit :
             adj_ok (fun c d => negb (Ascii.eqb c d) || is_line_terminator c)
               (c :: collapse_runs (if is_line_terminator c then None else Some c) r) = true).
  { destruct (IH (if is_line_terminator c then None else Some c)) as [A Hd].
    destruct (collapse_runs _ r) as [|d r'] eqn:E; [reflexivity|].
    rewrite adj_ok_cons2, A, andb_true_r.
    destruct (is_line_terminator c); [apply orb_true_r|].
    rewrite orb_false_r; apply negb_true_iff, Ascii.eqb_neq; intros ->.
    apply (Hd d d eq_refl eq_refl); reflexivity. }
  destruct prev as [p|]; cbn [collapse_runs].
  - destruct (Ascii.eqb p c) eqn:Epc.
    + destruct (IH (Some p)) as [A Hd]; split; [exact A|exact Hd].
    + split; [exact Emit|].
      intros p' c' E H; inversion E; inversion H; subst.
      intros ->; rewrite Ascii.eqb_refl in Epc; discriminate.
  - split; [exact Emit|intros p' c' E; discriminate].
Qed.

Lemma collapse_runs_In : forall s prev c, In c (collapse_runs prev s) -> In c s.
Proof.
  induction s as [|x r IH]; intros prev c H; [exact H|].
  cbn [collapse_runs] in H; destruct prev as [p|]; [destruct (Ascii.eqb p x)|];
    [right; exact (IH _ _ H)|..];
    (destruct H as [->|H]; [left; reflexivity|right; exact (IH _ _ H)]).
Qed.

Lemma line_terminator_space : forall c, is_line_terminator c = true -> is_space c = true.
Proof. intros [[] [] [] [] [] [] [] []] H; vm_compute in H |- *; congruence. Qed.

Lemma collapse_ws_true_head :
  forall r e, hd_error (collapse_ws true r) = Some e -> is_space e = false.
Proof.
  induction r as [|d r IH]; intros e H; [discriminate|].
  cbn [collapse_ws] in H; destruct (is_space d) eqn:S; [exact (IH e H)|].
  inversion H; subst; exact S.
Qed.

Lemma collapse_ws_adj :
  forall s b,
    adj_ok (fun c d => negb (Ascii.eqb c d) || is_line_terminator c) s = true ->
    adj_ok (fun c d => negb (Ascii.eqb c d)) (collapse_ws b s) = true.
Proof.
  induction s as [|c r IH]; intros b H; [reflexivity|].
  pose proof (adj_ok_tail _ _ _ H) as Hr.
  cbn [collapse_ws]; destruct (is_space c) eqn:Sc.
  - destruct b; [exact (IH true Hr)|].
    pose proof (IH true Hr) as A; pose proof (collapse_ws_true_head r) as Hd.
    destruct (collapse_ws true r) as [|e r'] eqn:E; [reflexivity|].
    rewrite adj_ok_cons2, A, andb_true_r.
    apply negb_true_iff, Ascii.eqb_neq; intros <-.
    specialize (Hd " "%char eq_refl); discriminate.
  - pose proof (IH false Hr) as A.
    destruct r as [|d r']; [reflexivity|].
    rewrite adj_ok_cons2 in H; apply andb_prop in H; destruct H as [Pcd _].
    assert (Lc : is_line_terminator c = false).
    { destruct (is_line_terminator c) eqn:L; [|reflexivity].
      apply line_terminator_space in L; congruence. }
    rewrite Lc, orb_false_r in Pcd.
    cbn [collapse_ws] in A |- *; destruct (is_space d) eqn:Sd;
      rewrite adj_ok_cons2, A, andb_true_r.
    + apply negb_true_iff, Ascii.eqb_neq; intros ->; discriminate.
    + exact Pcd.
Qed.

Lemma collapse_ws_In :
  forall s b e, In e (collapse_ws b s) -> e = " "%char \/ (In e s /\ is_space e = false).
Proof.
  induction s as [|c r IH]; intros b e H; [contradiction|].
  cbn [collapse_ws] in H; destruct (is_space c) eqn:Sc; [destruct b|].
  - destruct (IH _ _ H) as [?|[? ?]]; [left|right; split; [right|]]; assumption.
  - destruct H as [<-|H]; [left; reflexivity|].
    destruct (IH _ _ H) as [?|[? ?]]; [left|right; split; [right|]]; assumption.
  - destruct H as [<-|H]; [right; split; [left; reflexivity|exact Sc]|].
    destruct (IH _ _ H) as [?|[? ?]]; [left|right; split; [right|]]; assumption.
Qed.

Lemma trim_start_suffix : forall s, exists pre, s = pre ++ trim_start s.
Proof.
  induction s as [|c r IH]; [exists []; reflexivity|].
  cbn [trim_start]; destruct (is_space c); [|exists []; reflexivity].
  destruct IH as [pre E]; exists (c :: pre); simpl; rewrite <- E; reflexivity.
Qed.

Lemma trim_infix : forall s, exists a b, s = a ++ trim s ++ b.
Proof.
  intros s; unfold trim.
  destruct (trim_start_suffix s) as [p1 E1].
  destruct (trim_start_suffix (rev (trim_start s))) as [p2 E2].
  exists p1, (rev p2).
  set (u := trim_start s) in *; set (v := rev u) in *.
  rewrite E1 at 1; f_equal.
  transitivity (rev v); [unfold v; symmetry; apply rev_involutive|].
  rewrite E2 at 1; apply rev_app_distr.
Qed.

Lemma keep_char_normal :
  forall c, keep_char c = true -> is_space c = true \/ normal_char c = true.
Proof.
  intros [[] [] [] [] [] [] [] []] H; vm_compute in H |- *;
    first [discriminate H|left; reflexivity|right; reflexivity].
Qed.

Lemma forallb_infix :
  forall (f : ascii -> bool) a b c, forallb f (a ++ b ++ c) = true -> forallb f b = true.
Proof. intros f a b c H; rewrite !forallb_app in H; apply andb_prop in H as [_ H]; apply andb_prop in H as [H _]; exact H. Qed.

(** What [normalizeToken] returns only holds [a-z], digits, apostrophes and
    single spaces, and never the same character twice in a row. *)
Theorem normalized_token_normal_form :
  forall t, normal_form (list_ascii_of_string (normalizeToken t)) = true.
Proof.
  intros t; unfold normalizeToken; rewrite list_ascii_of_string_of_list_ascii.
  set (F := filter keep_char _).
  set (R := collapse_runs None F).
  set (W := collapse_ws false R).
  destruct (trim_infix W) as (a & b & E).
  unfold normal_form; apply andb_true_intro; split.
  - apply (forallb_infix _ a _ b); rewrite <- E.
    apply forallb_forall; intros e He.
    destruct (collapse_ws_In _ _ _ He) as [->|[Hin Hs]]; [reflexivity|].
    apply collapse_runs_In, filter_In in Hin; destruct Hin as [_ K].
    destruct (keep_char_normal e K) as [S|N]; [congruence|exact N].
  - apply (adj_ok_infix _ a _ b); rewrite <- E.
    apply collapse_ws_adj, collapse_runs_adj.
Qed.

Lemma split_on_nonempty : forall sep s, split_on sep s <> [].
Proof.
  intros sep [|c r]; simpl; [discriminate|].
  destruct (Ascii.eqb c sep); [discriminate|destruct (split_on sep r); discriminate].
Qed.

Lemma join_app :
  forall {A} (sep : list A) a b, a <> [] -> b <> [] ->
  join sep (a ++ b) = join sep a ++ sep ++ join sep b.
Proof.
  intros A sep a b Ha Hb; induction a as [|x [|y a] IH]; [congruence| |].
  - simpl; destruct b; [congruence|reflexivity].
  - change ((x :: y :: a) ++ b) with (x :: ((y :: a) ++ b)).
    change (join sep (x :: (y :: a) ++ b)) with (x ++ sep ++ join sep ((y :: a) ++ b)).
    change (join sep (x :: y :: a)) with (x ++ sep ++ join sep (y :: a)).
    rewrite IH by discriminate; rewrite <- !app_assoc; reflexivity.
Qed.

Lemma join_infix :
  forall {A} (sep : list A) pre mid post,
    exists x y, join sep (pre ++ mid ++ post) = x ++ join sep mid ++ y.
Proof.
  intros A sep pre mid post.
  destruct mid as [|m mid']; [exists (join sep (pre ++ post)), []; rewrite app_nil_r; reflexivity|].
  set (mid := m :: mid').
  assert (Hm : mid <> []) by discriminate.
  destruct post as [|q post'].
  - rewrite app_nil_r; destruct pre as [|p pre'].
    + exists [], []; rewrite app_nil_r; reflexivity.
    + rewrite join_app by (discriminate || exact Hm).
      exists (join sep (p :: pre') ++ sep), []; rewrite app_nil_r, app_assoc; reflexivity.
  - destruct pre as [|p pre'].
    + rewrite app_nil_l, (join_app sep mid) by (discriminate || exact Hm).
      exists [], (sep ++ join sep (q :: post')); reflexivity.
    + rewrite (join_app sep (p :: pre'))
        by (try discriminate; intros E; apply app_eq_nil in E; destruct E; discriminate).
      rewrite (join_app sep mid) by (discriminate || exact Hm).
      exists (join sep (p :: pre') ++ sep), (sep ++ join sep (q :: post')).
      rewrite <- !app_assoc; reflexivity.
Qed.

Lemma join_split_on : forall sep s, join [sep] (split_on sep s) = s.
Proof.
  intros sep s; induction s as [|c r IH]; [reflexivity|].
  cbn [split_on]; pose proof (split_on_nonempty sep r) as Hne.
  destruct (Ascii.eqb c sep) eqn:E.
  - apply Ascii.eqb_eq in E; subst c.
    destruct (split_on sep r) as [|h t]; [congruence|].
    change (join [sep] ([] :: h :: t)) with ([] ++ [sep] ++ join [sep] (h :: t)).
    rewrite IH; reflexivity.
  - destruct (split_on sep r) as [|h t]; [congruence|].
    destruct t as [|h' t]; [simpl in *; rewrite IH; reflexivity|].
    change (join [sep] ((c :: h) :: h' :: t)) with ((c :: h) ++ [sep] ++ join [sep] (h' :: t)).
    change (join [sep] (h :: h' :: t)) with (h ++ [sep] ++ join [sep] (h' :: t)) in IH.
    rewrite <- IH; reflexivity.
Qed.

Lemma chunk_infix :
  forall s i j, exists x y, s = x ++ join [" "%char] (slice (split_on " "%char s) i j) ++ y.
Proof.
  intros s i j; unfold slice.
  set (parts := split_on " "%char s).
  destruct (join_infix [" "%char] (firstn i parts) (firstn (j - i) (skipn i parts))
              (skipn (j - i) (skipn i parts))) as (x & y & E).
  exists x, y; rewrite <- E, !firstn_skipn; symmetry; apply join_split_on.
Qed.

Lemma filler_set_has_In : forall s, filler_set_has s = true -> In s FILLER_SET.
Proof.
  intros s H; apply existsb_exists in H; destruct H as (m & Hm & E).
  destruct (list_eq_dec ascii_dec m s); [subst; exact Hm|discriminate].
Qed.

(** A token is a filler only through a filler-list entry in normal form
    (only [a-z], digits, apostrophes and single spaces, no character twice
    in a row) equal to its normalised text or to a run of its
    space-separated parts.  Entries with a doubled letter or punctuation,
    such as "well", "really", "actually", "basically", "literally", "look",
    "gonna", "hmm", "i guess" or "uh-huh", never match anything. *)
Theorem filler_match_needs_normal_entry :
  forall t,
    let clean := list_ascii_of_string (normalizeToken t) in
    isFillerWord t = true ->
    exists m, In m FILLER_SET /\ normal_form m = true
      /\ (m = clean \/ exists i j, m = join [" "%char] (slice (split_on " "%char clean) i j)).
Proof.
  intros t clean H.
  pose proof (normalized_token_normal_form t) as N; fold clean in N.
  unfold isFillerWord in H; fold clean in H.
  destruct (filler_set_has clean) eqn:Hc.
  - exists clean; split; [apply filler_set_has_In; exact Hc|]; split; [exact N|left; reflexivity].
  - apply existsb_exists in H; destruct H as (i & _ & H).
    apply existsb_exists in H; destruct H as (j & _ & H).
    set (m := join [" "%char] (slice (split_on " "%char clean) i j)) in H.
    exists m; split; [apply filler_set_has_In; exact H|]; split; [|right; exists i, j; reflexivity].
    destruct (chunk_infix clean i j) as (x & y & E); fold m in E.
    unfold normal_form in N |- *; rewrite E in N; apply andb_prop in N; destruct N as [N1 N2].
    apply andb_true_intro; split;
      [exact (forallb_infix _ _ _ _ N1)|exact (adj_ok_infix _ _ _ _ N2)].
Qed.

Lemma filler_match_needs_normal_entry_witness :
  isFillerWord "Um, you know" = true
  /\ exists m, In m FILLER_SET /\ normal_form m = true
      /\ (m = list_ascii_of_string (normalizeToken "Um, you know")
          \/ exists i j, m = join [" "%char]
                               (slice (split_on " "%char
                                         (list_ascii_of_string (normalizeToken "Um, you know"))) i j)).
Proof.
  assert (H : isFillerWord "Um, you know" = true) by (vm_compute; reflexivity).
  split; [exact H|exact (filler_match_needs_normal_entry "Um, you know" H)].
Defined.

(** Some entries of the filler list are out of reach of the normalised
    text: they are in the list but not in normal form. *)
Lemma unmatchable_filler_entries :
  forall w, In w ["well"; "really"; "actually"; "basically"; "literally"; "look";
                  "gonna"; "hmm"; "i guess"; "uh-huh"]%string ->
  filler_set_has (list_ascii_of_string w) = true
  /\ normal_form (list_ascii_of_string w) = false.
Proof.
  intros w H; repeat (destruct H as [<-|H]; [vm_compute; split; reflexivity|]); contradiction.
Qed.

(** ** Filler context windows *)

Lemma dropNulls_mapFillers_In :
  forall all l k f,
    In f (dropNulls (mapFillers all k l))
    <-> exists j w, nth_error l j = Some w /\ fillerAt all (k + j) w = Some f.
Proof.
  intros all l; induction l as [|w l IH]; intros k f.
  - simpl; split; [contradiction|intros (j & w & E & _); destruct j; discriminate].
  - cbn [mapFillers]; destruct (fillerAt all k w) as [g|] eqn:F; cbn [dropNulls].
    + cbn [In]; rewrite IH; split.
      * intros [<-|(j & w' & E & G)].
        -- exists 0%nat, w; rewrite Nat.add_0_r; auto.
        -- exists (S j), w'; rewrite <- Nat.add_succ_comm; auto.
      * intros ([|j] & w' & E & G); simpl in E.
        -- inversion E; subst; rewrite Nat.add_0_r in G; left; congruence.
        -- right; exists j, w'; rewrite Nat.add_succ_comm; auto.
    + rewrite IH; split.
      * intros (j & w' & E & G); exists (S j), w'; rewrite <- Nat.add_succ_comm; auto.
      * intros ([|j] & w' & E & G); simpl in E.
        -- inversion E; subst; rewrite Nat.add_0_r in G; congruence.
        -- exists j, w'; rewrite Nat.add_succ_comm; auto.
Qed.

Lemma firstn_min_len :
  forall {A} (l : list A) k, firstn (Nat.min (length l) k) l = firstn k l.
Proof.
  intros A l k; destruct (Nat.le_ge_cases (length l) k) as [H|H].
  - rewrite Nat.min_l by exact H; rewrite firstn_all, firstn_all2 by exact H; reflexivity.
  - rewrite Nat.min_r by exact H; reflexivity.
Qed.

Lemma fillerAt_split :
  forall l1 w l2,
    let ws := l1 ++ w :: l2 in
    let ctx := fun l => string_of_list_ascii
                          (join [" "%char] (map (fun x => list_ascii_of_string (word x)) l)) in
    fillerAt ws (length l1) w
    = if isFillerWord (word w)
      then Some (mkFiller (word w) (start w) (ctx (skipn (length l1 - 5) l1)) (ctx (firstn 5 l2)))
      else None.
Proof.
  intros l1 w l2 ws ctx; unfold fillerAt, CONTEXT_WORDS_COUNT.
  destruct (isFillerWord (word w)); [|reflexivity].
  do 2 f_equal.
  - unfold ctx, slice, ws; do 3 f_equal.
    rewrite skipn_app.
    replace (length l1 - 5 - length l1)%nat with 0%nat by lia; simpl.
    set (b := skipn (length l1 - 5) l1).
    replace (length l1 - (length l1 - 5))%nat with (length b + 0)%nat
      by (unfold b; rewrite length_skipn; lia).
    rewrite firstn_app_2; simpl; rewrite app_nil_r; reflexivity.
  - unfold ctx, slice, ws; do 3 f_equal.
    rewrite length_app; cbn [length].
    rewrite skipn_app, skipn_all2 by lia.
    replace (length l1 + 1 - length l1)%nat with 1%nat by lia; cbn [skipn app].
    replace (Nat.min (length l1 + S (length l2) - 1) (length l1 + 5) + 1 - (length l1 + 1))%nat
      with (Nat.min (length l2) 5) by lia.
    apply firstn_min_len.
Qed.

(** Each filler event's context is made of the words around its word: the
    up to five words right before it and the up to five right after it,
    each group joined by single spaces; a group has fewer than five words
    only when the word list ends first. *)
Theorem filler_context_windows :
  forall ws f,
    let ctx := fun l => string_of_list_ascii
                          (join [" "%char] (map (fun x => list_ascii_of_string (word x)) l)) in
    In f (detectFillers ws)
    <-> exists pre bl w al post,
          ws = pre ++ bl ++ w :: al ++ post
          /\ length bl = Nat.min (length pre + length bl) 5
          /\ length al = Nat.min (length al + length post) 5
          /\ isFillerWord (word w) = true
          /\ f = mkFiller (word w) (start w) (ctx bl) (ctx al).
Proof.
  intros ws f ctx; unfold detectFillers; rewrite dropNulls_mapFillers_In; split.
  - intros (i & w & E & F); change (0 + i)%nat with i in F.
    destruct (nth_error_split ws i E) as (l1 & l2 & Ews & L1); subst ws i.
    rewrite fillerAt_split in F; fold ctx in F.
    destruct (isFillerWord (word w)) eqn:Fw; [|discriminate].
    injection F as <-.
    exists (firstn (length l1 - 5) l1), (skipn (length l1 - 5) l1), w,
           (firstn 5 l2), (skipn 5 l2).
    split; [rewrite app_assoc, !firstn_skipn; reflexivity|].
    rewrite !length_firstn, !length_skipn.
    split; [lia|]; split; [lia|]; split; [exact Fw|reflexivity].
  - intros (pre & bl & w & al & post & Ews & Lb & La & Fw & Hf).
    exists (length (pre ++ bl)), w; split.
    + rewrite Ews, app_assoc, nth_error_app2, Nat.sub_diag by lia; reflexivity.
    + simpl; rewrite Ews, app_assoc, fillerAt_split, Fw; fold ctx; rewrite Hf.
      rewrite length_app, skipn_app.
      replace (length pre + length bl - 5 - length pre)%nat with 0%nat by lia.
      rewrite skipn_all2 by lia; cbn [skipn app].
      destruct (Nat.eq_dec (length al) 5) as [H5|H5].
      * replace 5%nat with (length al + 0)%nat by lia.
        rewrite firstn_app_2; cbn [firstn]; rewrite app_nil_r; reflexivity.
      * assert (post = []) by (destruct post; [reflexivity|simpl in La; lia]); subst post.
        rewrite app_nil_r, firstn_all2 by lia; reflexivity.
Qed.

(** ** Normalising twice *)

Lemma normal_char_lower : forall c, normal_char c = true -> lower_char c = c.
Proof.
  intros [[] [] [] [] [] [] [] []] H; vm_compute in H |- *; first [discriminate H|reflexivity].
Qed.

Lemma normal_char_keep : forall c, normal_char c = true -> keep_char c = true.
Proof.
  intros [[] [] [] [] [] [] [] []] H; vm_compute in H |- *; first [discriminate H|reflexivity].
Qed.

Lemma normal_char_not_lt : forall c, normal_char c = true -> is_line_terminator c = false.
Proof.
  intros [[] [] [] [] [] [] [] []] H; vm_compute in H |- *; first [discriminate H|reflexivity].
Qed.

Lemma normal_char_space : forall c, normal_char c = true -> is_space c = true -> c = " "%char.
Proof.
  intros [[] [] [] [] [] [] [] []] H S; vm_compute in H, S |- *;
    first [discriminate H|discriminate S|reflexivity].
Qed.

Lemma neq_head :
  forall c d r, adj_ok (fun c d => negb (Ascii.eqb c d)) (c :: d :: r) = true -> c <> d.
Proof.
  intros c d r H; rewrite adj_ok_cons2 in H; apply andb_prop in H as [H _].
  apply negb_true_iff, Ascii.eqb_neq in H; exact H.
Qed.

Lemma collapse_runs_normal :
  forall s prev,
    normal_form s = true ->
    (forall p c, prev = Some p -> hd_error s = Some c -> c <> p) ->
    collapse_runs prev s = s.
Proof.
  induction s as [|c r IH]; intros prev N Hp; [reflexivity|].
  unfold normal_form in N; cbn [forallb] in N.
  apply andb_prop in N as [N A]; apply andb_prop in N as [Nc Nr].
  assert (Nr' : normal_form r = true)
    by (unfold normal_form; rewrite Nr; exact (adj_ok_tail _ _ _ A)).
  assert (Rest : collapse_runs (if is_line_terminator c then None else Some c) r = r).
  { rewrite normal_char_not_lt by exact Nc; apply IH; [exact Nr'|].
    intros p d E H; inversion E; subst p.
    destruct r as [|d' r']; [discriminate|]; inversion H; subst d'.
    intros ->; exact (neq_head _ _ _ A eq_refl). }
  cbn [collapse_runs]; destruct prev as [p|].
  - destruct (Ascii.eqb p c) eqn:E.
    + apply Ascii.eqb_eq in E; subst; exfalso; exact (Hp c c eq_refl eq_refl eq_refl).
    + rewrite Rest; reflexivity.
  - rewrite Rest; reflexivity.
Qed.

Lemma collapse_ws_normal :
  forall s b,
    normal_form s = true ->
    (b = true -> forall c, hd_error s = Some c -> is_space c = false) ->
    collapse_ws b s = s.
Proof.
  induction s as [|c r IH]; intros b N Hb; [reflexivity|].
  unfold normal_form in N; cbn [forallb] in N.
  apply andb_prop in N as [N A]; apply andb_prop in N as [Nc Nr].
  assert (Nr' : normal_form r = true)
    by (unfold normal_form; rewrite Nr; exact (adj_ok_tail _ _ _ A)).
  cbn [collapse_ws]; destruct (is_space c) eqn:Sc.
  - destruct b; [specialize (Hb eq_refl c eq_refl); congruence|].
    pose proof (normal_char_space c Nc Sc) as ->.
    rewrite IH; [reflexivity|exact Nr'|].
    intros _ d H; destruct r as [|d' r']; [discriminate|]; inversion H; subst d'.
    destruct (is_space d) eqn:Sd; [|reflexivity].
    cbn [forallb] in Nr; apply andb_prop in Nr as [Nd _].
    pose proof (normal_char_space d Nd Sd) as ->.
    exfalso; exact (neq_head _ _ _ A eq_refl).
  - rewrite IH; [reflexivity|exact Nr'|discriminate].
Qed.

Lemma trim_start_head :
  forall s c, hd_error (trim_start s) = Some c -> is_space c = false.
Proof.
  induction s as [|d r IH]; intros c H; [discriminate|].
  cbn [trim_start] in H; destruct (is_space d) eqn:S; [exact (IH c H)|].
  inversion H; subst; exact S.
Qed.

Lemma trim_start_nospace :
  forall s, (forall c, hd_error s = Some c -> is_space c = false) -> trim_start s = s.
Proof.
  intros [|c r] H; [reflexivity|]; cbn [trim_start].
  rewrite (H c eq_refl); reflexivity.
Qed.

Lemma trim_ends :
  forall s,
    (forall c, hd_error (trim s) = Some c -> is_space c = false)
    /\ (forall c, hd_error (rev (trim s)) = Some c -> is_space c = false).
Proof.
  intros s; unfold trim; split.
  - set (X := trim_start s).
    destruct (trim_start_suffix (rev X)) as [pre E].
    assert (EX : X = rev (trim_start (rev X)) ++ rev pre)
      by (rewrite <- (rev_involutive X) at 1; rewrite E at 1; apply rev_app_distr).
    intros c H.
    destruct (rev (trim_start (rev X))) as [|d r] eqn:R; [discriminate|].
    inversion H; subst d.
    apply (trim_start_head s); fold X; rewrite EX; reflexivity.
  - intros c H; rewrite rev_involutive in H; exact (trim_start_head _ _ H).
Qed.

Lemma trim_nospace :
  forall s,
    (forall c, hd_error s = Some c -> is_space c = false) ->
    (forall c, hd_error (rev s) = Some c -> is_space c = false) ->
    trim s = s.
Proof.
  intros s H1 H2; unfold trim.
  rewrite (trim_start_nospace s H1), (trim_start_nospace (rev s) H2); apply rev_involutive.
Qed.

Lemma forallb_filter_id :
  forall (f : ascii -> bool) s, forallb f s = true -> filter f s = s.
Proof.
  intros f s; induction s as [|c r IH]; intros H; [reflexivity|].
  cbn [forallb] in H; apply andb_prop in H as [Hc Hr]; simpl; rewrite Hc, IH by exact Hr.
  reflexivity.
Qed.

(** Normalising an already normalised token changes nothing. *)
Theorem normalizeToken_idempotent :
  forall t, normalizeToken (normalizeToken t) = normalizeToken t.
Proof.
  intros t.
  pose proof (normalized_token_normal_form t) as N.
  unfold normalizeToken at 1.
  set (s := list_ascii_of_string (normalizeToken t)) in *.
  assert (Ends := trim_ends (collapse_ws false (collapse_runs None
                    (filter keep_char (toLowerCase (list_ascii_of_string t)))))).
  assert (Es : s = trim (collapse_ws false (collapse_runs None
                    (filter keep_char (toLowerCase (list_ascii_of_string t))))))
    by (unfold s, normalizeToken; apply list_ascii_of_string_of_list_ascii).
  rewrite <- Es in Ends; destruct Ends as [H1 H2].
  assert (F : forallb normal_char s = true)
    by (unfold normal_form in N; apply andb_prop in N as [N _]; exact N).
  assert (L : toLowerCase s = s).
  { unfold toLowerCase; rewrite <- (map_id s) at 2; apply map_ext_in.
    intros c Hc; apply normal_char_lower; rewrite forallb_forall in F; exact (F c Hc). }
  assert (K : filter keep_char s = s).
  { apply forallb_filter_id, forallb_forall; intros c Hc.
    apply normal_char_keep; rewrite forallb_forall in F; exact (F c Hc). }
  rewrite L, K, collapse_runs_normal, collapse_ws_normal, trim_nospace;
    try assumption; try discriminate.
  unfold s; apply string_of_list_ascii_of_string.
Qed.

(** ** Completing a reachable session *)

(** For every session reached through the service's methods, completing it
    with at least one recorded word always builds the summary and posts it:
    the "Failed to complete session" error can then only come from the POST
    itself failing, and the client hears the outcome if its socket is open. *)
Theorem reachable_complete_posts :
  forall b s,
    reachable s -> allWords s <> [] ->
    snd (completeSession b s)
    = BackendPost ::
      (if clientOpen s
       then [Send (match b with
                   | Some id => MsgSessionComplete "Session completed. Analysis in progress..." id
                   | None => MsgError "Failed to complete session"
                   end)]
       else []).
Proof.
  intros b s R N.
  destruct (reachable_words_consistent s R) as (_ & Hs & He).
  rewrite completeSession_effects.
  destruct (allWords s) as [|w ws] eqn:W; [congruence|].
  assert (G : exists sm, generateSummary s = Some sm).
  { unfold generateSummary; rewrite Hs, He; cbn [hd_error option_map].
    destruct (rev (w :: ws)) as [|x r] eqn:Rv;
      [apply (f_equal (@length _)) in Rv; rewrite length_rev in Rv; discriminate|].
    eexists; reflexivity. }
  destruct G as [sm ->]; reflexivity.
Qed.

Lemma reachable_complete_posts_witness :
  let s := fst (handleTranscript (mkEvent "it is 42" [mkWord "it" 0 1 1; mkWord "is" 1 2 1;
                                                      mkWord "42" 2 3 1] true)
                  (fst (startSession true (newSession "r" "p" true)))) in
  reachable s /\ allWords s <> []
  /\ snd (completeSession (Some "id7") s)
     = BackendPost ::
       (if clientOpen s
        then [Send (MsgSessionComplete "Session completed. Analysis in progress..." "id7")]
        else []).
Proof.
  intros s.
  assert (R : reachable s) by (apply reach_transcript, reach_start, reach_new).
  assert (N : allWords s <> []) by (simpl; discriminate).
  split; [exact R|]; split; [exact N|].
  exact (reachable_complete_posts (Some "id7") s R N).
Defined.
